(** * The flight motion model of [game.js]

    A shallow embedding of the per-frame update of [GameScene] and of the
    two pointer handlers, with the properties of the motion model proved
    about it.

    JavaScript numbers are IEEE 754 binary64 values, which is what Rocq's
    primitive [float] is: every arithmetic operation below is the very
    operation the script performs, rounding, infinities and NaN included,
    and every definition computes.

    The scene is a record of the fields [update] reads and writes.  Phaser
    is the host: of it the model keeps the world gravity, the camera's
    horizontal scroll, the bird's position and body velocity, the tile
    position of the background sprite, and the three [Phaser.Math]/[Math]
    helpers the script calls. *)

From Stdlib Require Import ZArith Bool List Lia Floats.
Import ListNotations.

Set Warnings "-inexact-float".
#[local] Open Scope float_scope.

(** ** The constant tables *)

Module PHYSICS.
Definition GRAVITY : float := 800.
Definition GLIDE_GRAVITY : float := 600.
Definition THRUST : float := -500.
Definition THRUST_FORWARD_BOOST : float := 20.
Definition GLIDE_FORWARD_MAINTAIN : float := 0.99.
Definition FALL_DECELERATION : float := 0.95.
Definition DRAG : float := 0.92.
Definition BASE_FORWARD_SPEED : float := 70.
Definition MAX_FORWARD_SPEED : float := 1700.
Definition MAX_VELOCITY_Y : float := 600.
Definition FALL_THRESHOLD : float := 300.
End PHYSICS.

Module MOVEMENT.
Definition MIN_X : float := 200.
Definition MAX_X : float := 800.
Definition CAMERA_LERP : float := 0.1.
Definition WORLD_SCROLL_FACTOR : float := 1.0.
End MOVEMENT.

Module BACKGROUND.
Definition PARALLAX_FACTOR : float := 0.5.
Definition SCALE : float := 0.35.
Definition CONSTANT_SCROLL_SPEED : float := 130.
End BACKGROUND.

Module GAME.
Definition WIDTH : float := 1920.
Definition HEIGHT : float := 1080.
Definition BIRD_SIZE : float := 50.
Definition BIRD_X : float := 200.
End GAME.

(** ** The host's numeric helpers *)

(** [Math.min], [Math.max] and [Math.floor] of ECMAScript.  A NaN argument
    gives NaN, and the two zeros are ordered: [-0] is below [+0]. *)
Module Math.

Definition is_neg_zero (a : float) : bool := is_zero a && get_sign a.
Definition is_pos_zero (a : float) : bool := is_zero a && negb (get_sign a).

Definition min (a b : float) : float :=
  if is_nan a || is_nan b then nan
  else if a <? b then a
  else if b <? a then b
  else if is_neg_zero a then a else b.

Definition max (a b : float) : float :=
  if is_nan a || is_nan b then nan
  else if b <? a then a
  else if a <? b then b
  else if is_pos_zero a then a else b.

(** An integer of magnitude below [2^53] as a float (exact there). *)
Definition of_Z (n : Z) : float :=
  match n with
  | Z0 => zero
  | Zpos _ => of_uint63 (Uint63.of_Z n)
  | Zneg p => - of_uint63 (Uint63.of_Z (Zpos p))
  end.

(** The greatest integer not above [x].  A float with a non-negative
    exponent is an integer already; otherwise the signed mantissa is
    divided by the power of two, rounding down ([Z.shiftr]).  Zeros,
    infinities and NaN are returned as they are. *)
Definition floor (x : float) : float :=
  match Prim2SF x with
  | S754_finite s m e =>
      if (0 <=? e)%Z then x
      else of_Z (Z.shiftr (cond_Zopp s (Zpos m)) (- e))
  | _ => x
  end.

End Math.

(** [Phaser.Math.Clamp] and [Phaser.Math.Linear], as the Phaser 3 library
    defines them:
    [Clamp (value, min, max) = Math.max(min, Math.min(max, value))] and
    [Linear (p0, p1, t) = (p1 - p0) * t + p0]. *)
Module Phaser.
Definition Clamp (value lo hi : float) : float :=
  Math.max lo (Math.min hi value).
Definition Linear (p0 p1 t : float) : float :=
  (p1 - p0) * t + p0.
End Phaser.

(** ** The scene *)

(** The bird: the sprite's position and the velocity of its arcade body
    ([bird.x], [bird.y], [bird.body.velocity.x], [bird.body.velocity.y]). *)
Module Sprite.
Record t : Set := mk {
  x : float;
  y : float;
  velocity_x : float;
  velocity_y : float
}.

Definition setX (v : float) (b : t) : t :=
  {| x := v; y := y b; velocity_x := velocity_x b; velocity_y := velocity_y b |}.
Definition setY (v : float) (b : t) : t :=
  {| x := x b; y := v; velocity_x := velocity_x b; velocity_y := velocity_y b |}.
Definition setVelocityX (v : float) (b : t) : t :=
  {| x := x b; y := y b; velocity_x := v; velocity_y := velocity_y b |}.
Definition setVelocityY (v : float) (b : t) : t :=
  {| x := x b; y := y b; velocity_x := velocity_x b; velocity_y := v |}.
End Sprite.

(** The fields of [GameScene], and the host state the scene writes:
    [gravity_y] is [this.physics.world.gravity.y], [scrollX] is
    [this.cameras.main.scrollX], [backgroundSprite] is [None] while the
    field is [null] and otherwise holds the sprite's [tilePositionX], and
    [distanceText] is the number shown by [`Distance: ${distance}m`]. *)
Record GameScene : Set := mkScene {
  bird : Sprite.t;
  isThrusting : bool;
  distance : float;
  distanceText : float;
  backgroundSprite : option float;
  backgroundOffset : float;
  forwardVelocity : float;
  cameraTargetX : float;
  worldOffset : float;
  gravity_y : float;
  scrollX : float
}.

Definition set_bird (b : Sprite.t) (s : GameScene) : GameScene :=
  mkScene b (isThrusting s) (distance s) (distanceText s)
    (backgroundSprite s) (backgroundOffset s) (forwardVelocity s)
    (cameraTargetX s) (worldOffset s) (gravity_y s) (scrollX s).

Definition set_isThrusting (v : bool) (s : GameScene) : GameScene :=
  mkScene (bird s) v (distance s) (distanceText s)
    (backgroundSprite s) (backgroundOffset s) (forwardVelocity s)
    (cameraTargetX s) (worldOffset s) (gravity_y s) (scrollX s).

Definition set_distance (v : float) (s : GameScene) : GameScene :=
  mkScene (bird s) (isThrusting s) v (distanceText s)
    (backgroundSprite s) (backgroundOffset s) (forwardVelocity s)
    (cameraTargetX s) (worldOffset s) (gravity_y s) (scrollX s).

Definition set_distanceText (v : float) (s : GameScene) : GameScene :=
  mkScene (bird s) (isThrusting s) (distance s) v
    (backgroundSprite s) (backgroundOffset s) (forwardVelocity s)
    (cameraTargetX s) (worldOffset s) (gravity_y s) (scrollX s).

Definition set_backgroundSprite (v : option float) (s : GameScene) : GameScene :=
  mkScene (bird s) (isThrusting s) (distance s) (distanceText s)
    v (backgroundOffset s) (forwardVelocity s)
    (cameraTargetX s) (worldOffset s) (gravity_y s) (scrollX s).

Definition set_backgroundOffset (v : float) (s : GameScene) : GameScene :=
  mkScene (bird s) (isThrusting s) (distance s) (distanceText s)
    (backgroundSprite s) v (forwardVelocity s)
    (cameraTargetX s) (worldOffset s) (gravity_y s) (scrollX s).

Definition set_forwardVelocity (v : float) (s : GameScene) : GameScene :=
  mkScene (bird s) (isThrusting s) (distance s) (distanceText s)
    (backgroundSprite s) (backgroundOffset s) v
    (cameraTargetX s) (worldOffset s) (gravity_y s) (scrollX s).

Definition set_cameraTargetX (v : float) (s : GameScene) : GameScene :=
  mkScene (bird s) (isThrusting s) (distance s) (distanceText s)
    (backgroundSprite s) (backgroundOffset s) (forwardVelocity s)
    v (worldOffset s) (gravity_y s) (scrollX s).

Definition set_worldOffset (v : float) (s : GameScene) : GameScene :=
  mkScene (bird s) (isThrusting s) (distance s) (distanceText s)
    (backgroundSprite s) (backgroundOffset s) (forwardVelocity s)
    (cameraTargetX s) v (gravity_y s) (scrollX s).

Definition set_gravity_y (v : float) (s : GameScene) : GameScene :=
  mkScene (bird s) (isThrusting s) (distance s) (distanceText s)
    (backgroundSprite s) (backgroundOffset s) (forwardVelocity s)
    (cameraTargetX s) (worldOffset s) v (scrollX s).

Definition set_scrollX (v : float) (s : GameScene) : GameScene :=
  mkScene (bird s) (isThrusting s) (distance s) (distanceText s)
    (backgroundSprite s) (backgroundOffset s) (forwardVelocity s)
    (cameraTargetX s) (worldOffset s) (gravity_y s) v.

(** The scene once [constructor] and [create] have run: the counters as
    the constructor sets them, the bird spawned by [createBird] at
    [(MIN_X, HEIGHT / 2)] at rest, the world gravity set by [create], the
    tile sprite made by [createBackground], the camera at its origin. *)
Definition create : GameScene :=
  {| bird := Sprite.mk MOVEMENT.MIN_X (GAME.HEIGHT / 2) 0 0;
     isThrusting := false;
     distance := 0;
     distanceText := 0;
     backgroundSprite := Some 0;
     backgroundOffset := 0;
     forwardVelocity := PHYSICS.BASE_FORWARD_SPEED;
     cameraTargetX := 0;
     worldOffset := 0;
     gravity_y := PHYSICS.GRAVITY;
     scrollX := 0 |}.

(** ** The methods of [GameScene] *)

(** The two handlers registered by [setupInput]. *)
Definition pointerdown (s : GameScene) : GameScene := set_isThrusting true s.
Definition pointerup (s : GameScene) : GameScene := set_isThrusting false s.

Definition applyPhysics (deltaTime : float) (s : GameScene) : GameScene :=
  if isThrusting s then
    let s := set_bird (Sprite.setVelocityY PHYSICS.THRUST (bird s)) s in
    set_gravity_y PHYSICS.GRAVITY s
  else
    set_gravity_y PHYSICS.GLIDE_GRAVITY s.

Definition updateForwardVelocity (deltaTime : float) (s : GameScene) : GameScene :=
  let s :=
    if isThrusting s then
      set_forwardVelocity
        (forwardVelocity s + PHYSICS.THRUST_FORWARD_BOOST * deltaTime) s
    else
      let fallingBadly :=
        PHYSICS.FALL_THRESHOLD <? Sprite.velocity_y (bird s) in
      if fallingBadly then
        set_forwardVelocity (forwardVelocity s * PHYSICS.FALL_DECELERATION) s
      else
        set_forwardVelocity (forwardVelocity s * PHYSICS.GLIDE_FORWARD_MAINTAIN) s in
  let s :=
    set_forwardVelocity
      (Phaser.Clamp (forwardVelocity s)
         PHYSICS.BASE_FORWARD_SPEED PHYSICS.MAX_FORWARD_SPEED) s in
  set_bird (Sprite.setVelocityX (forwardVelocity s) (bird s)) s.

Definition constrainBirdPosition (s : GameScene) : GameScene :=
  let b := bird s in
  let b :=
    if Sprite.x b <? MOVEMENT.MIN_X then
      let b := Sprite.setX MOVEMENT.MIN_X b in
      Sprite.setVelocityX (Math.max 0 (Sprite.velocity_x b)) b
    else if MOVEMENT.MAX_X <? Sprite.x b then
      let b := Sprite.setX MOVEMENT.MAX_X b in
      Sprite.setVelocityX (Math.min 0 (Sprite.velocity_x b)) b
    else b in
  let b :=
    if Sprite.y b <? 0 then
      let b := Sprite.setY 0 b in
      Sprite.setVelocityY (Math.max 0 (Sprite.velocity_y b)) b
    else if GAME.HEIGHT <? Sprite.y b then
      let b := Sprite.setY GAME.HEIGHT b in
      Sprite.setVelocityY (Math.min 0 (Sprite.velocity_y b)) b
    else b in
  set_bird b s.

Definition updateCamera (deltaTime : float) (s : GameScene) : GameScene :=
  let s := set_cameraTargetX (worldOffset s * 0.2) s in
  set_scrollX
    (Phaser.Linear (scrollX s) (cameraTargetX s) MOVEMENT.CAMERA_LERP) s.

Definition updateWorldPosition (deltaTime : float) (s : GameScene) : GameScene :=
  let s :=
    set_worldOffset
      (worldOffset s
       + forwardVelocity s * deltaTime * MOVEMENT.WORLD_SCROLL_FACTOR) s in
  let s := set_distance (Math.floor (worldOffset s / 10)) s in
  set_distanceText (distance s) s.

Definition updateBackgroundScrolling (s : GameScene) : GameScene :=
  match backgroundSprite s with
  | None => s
  | Some _ => set_backgroundSprite (Some (backgroundOffset s)) s
  end.

(** The time step of a frame: the host's [delta] is in milliseconds. *)
Definition clampedDeltaTime (delta : float) : float :=
  let deltaTime := delta / 1000 in
  Math.min deltaTime (1 / 60).

Definition update (delta : float) (s : GameScene) : GameScene :=
  let clampedDeltaTime := clampedDeltaTime delta in
  let s := applyPhysics clampedDeltaTime s in
  let s := updateForwardVelocity clampedDeltaTime s in
  let s := constrainBirdPosition s in
  let s := updateCamera clampedDeltaTime s in
  let s := updateWorldPosition clampedDeltaTime s in
  let s :=
    set_backgroundOffset
      (backgroundOffset s
       + BACKGROUND.CONSTANT_SCROLL_SPEED * clampedDeltaTime) s in
  updateBackgroundScrolling s.

(** ** The host *)

(** What the host does to the scene between its creation and its teardown:
    it delivers the two pointer events, it calls [update] with the
    milliseconds elapsed, and its arcade-physics pass moves the bird's body.
    The pass is any function of the world gravity and of the body (Phaser
    integrates velocity and position, applies drag and the velocity cap);
    it reads no other field of the scene and writes none. *)
Inductive event : Type :=
| ev_pointerdown
| ev_pointerup
| ev_update (delta : float)
| ev_physics (integrate : float -> Sprite.t -> Sprite.t).

Definition step (e : event) (s : GameScene) : GameScene :=
  match e with
  | ev_pointerdown => pointerdown s
  | ev_pointerup => pointerup s
  | ev_update delta => update delta s
  | ev_physics integrate => set_bird (integrate (gravity_y s) (bird s)) s
  end.

Definition run (evs : list event) (s : GameScene) : GameScene :=
  fold_left (fun s e => step e s) evs s.

(** The deltas of the frames of a run, in order. *)
Fixpoint deltas (evs : list event) : list float :=
  match evs with
  | [] => []
  | ev_update delta :: evs => delta :: deltas evs
  | _ :: evs => deltas evs
  end.

(** A frame whose elapsed time is a number, and one whose elapsed time is
    not negative. *)
Definition timed (e : event) : bool :=
  match e with
  | ev_update delta => negb (is_nan delta)
  | _ => true
  end.

Definition forward (e : event) : bool :=
  match e with
  | ev_update delta => 0 <=? delta
  | _ => true
  end.

(** ** The rules in the words of the specification *)

(** [lo <= v <= hi]. *)
Definition within (lo hi v : float) : bool := (lo <=? v) && (v <=? hi).

(** Clamping a value to [[lo, hi]]. *)
Definition clamp_to (lo hi v : float) : float :=
  if v <? lo then lo else if hi <? v then hi else v.

(** The forward-velocity rule: linear growth while thrusting, the decay by
    0.95 when falling badly, the decay by 0.99 otherwise, then the clamp. *)
Definition forward_velocity_rule
    (thrusting : bool) (velocityY forwardVelocity delta : float) : float :=
  clamp_to 70 1700
    (if thrusting then forwardVelocity + 20 * delta
     else if 300 <? velocityY then forwardVelocity * 0.95
     else forwardVelocity * 0.99).

(** The camera's easing: a tenth of the way to the target. *)
Definition ease (scroll target : float) : float :=
  scroll + 0.1 * (target - scroll).

(** The background offset after frames of the given deltas. *)
Definition scrolled (ds : list float) (offset : float) : float :=
  fold_left (fun b d => b + 130 * clampedDeltaTime d) ds offset.

(** A scene in flight: the forward velocity within its bounds, and neither
    offset negative. *)
Definition cruising (s : GameScene) : bool :=
  within 70 1700 (forwardVelocity s)
  && (0 <=? worldOffset s) && (0 <=? backgroundOffset s).

(** A frame played with the pointer held or released: the handler runs, then
    [update] with the frame's delta. *)
Definition presses (input : bool * float) : list event :=
  [if fst input then ev_pointerdown else ev_pointerup; ev_update (snd input)].

Definition play (inputs : list (bool * float)) : list event :=
  flat_map presses inputs.

(** A positive float of value at most one: [m * 2 ^ e] with [e <= 0] and
    [m <= 2 ^ (- e)]. *)
Definition SFfraction (x : spec_float) : bool :=
  match x with
  | S754_finite false m e => ((e <=? 0) && (Zpos m <=? 2 ^ (- e)))%Z
  | _ => false
  end.

(** The last pointer event of a run, [true] for a press, if there is one. *)
Fixpoint last_pointer (evs : list event) : option bool :=
  match evs with
  | [] => None
  | e :: evs =>
      match last_pointer evs with
      | Some b => Some b
      | None =>
          match e with
          | ev_pointerdown => Some true
          | ev_pointerup => Some false
          | _ => None
          end
      end
  end.

(** * Binary64 facts

    The kernel's floats are specified by [Prim2SF] into [spec_float] and by
    the [_spec] equations of the operations.  The facts the motion model
    needs are derived from those: the order, the results that are numbers,
    signs, commutativity, and the monotony of rounded addition. *)

(** The comparison of two floats: [None] when one is NaN. *)
Definition cmp (a b : float) : option comparison :=
  SFcompare (Prim2SF a) (Prim2SF b).

(** A number of the sign [s]. *)
Definition SFsigned (s : bool) (x : spec_float) : Prop :=
  match x with
  | S754_zero s' | S754_infinity s' | S754_finite s' _ _ => s' = s
  | S754_nan => False
  end.

(** Zero or above: a zero of either sign, a positive number, [+infinity]. *)
Definition SFnonneg (x : spec_float) : Prop :=
  match x with
  | S754_zero _ | S754_infinity false | S754_finite false _ _ => True
  | _ => False
  end.

(** [x <= y], false when one is NaN. *)
Definition SFle (x y : spec_float) : Prop :=
  match SFcompare x y with Some (Lt | Eq) => True | _ => False end.

(** Neither zero, nor infinite, nor NaN. *)
Definition SFfinite (x : spec_float) : Prop :=
  match x with S754_finite _ _ _ => True | _ => False end.

(** ** The order of [spec_float] *)

Ltac cmp_cases :=
  repeat match goal with
  | |- context [Z.compare ?a ?b] => destruct (Z.compare_spec a b)
  | H : context [Z.compare ?a ?b] |- _ => destruct (Z.compare_spec a b)
  | |- context [Pos.compare_cont Eq ?a ?b] =>
      change (Pos.compare_cont Eq a b) with (Pos.compare a b);
      destruct (Pos.compare_spec a b)
  | H : context [Pos.compare_cont Eq ?a ?b] |- _ =>
      change (Pos.compare_cont Eq a b) with (Pos.compare a b) in H;
      destruct (Pos.compare_spec a b)
  end.

Section SpecOrder.
  Implicit Types x y z : spec_float.

Lemma SFcompare_refl x : x <> S754_nan -> SFcompare x x = Some Eq.
Proof.
    destruct x as [s|s| |s m e]; try destruct s; simpl; intros H;
      try congruence; now rewrite Z.compare_refl, Pos.compare_cont_refl.
Qed.

Lemma SFcompare_sym x y :
    SFcompare y x = option_map CompOpp (SFcompare x y).
Proof.
    destruct x as [s|s| |s m e], y as [s'|s'| |s' m' e'];
      try destruct s; try destruct s'; simpl; try reflexivity;
      cmp_cases; simpl; try reflexivity; try lia; subst; try lia.
Qed.

Lemma SFcompare_Eq x y :
    SFcompare x y = Some Eq ->
    x = y \/ (exists s s', x = S754_zero s /\ y = S754_zero s').
Proof.
    destruct x as [s|s| |s m e], y as [s'|s'| |s' m' e'];
      try destruct s; try destruct s'; simpl; try discriminate;
      intros H; try (left; reflexivity); try (right; eauto; fail);
      cmp_cases; simpl in *; try discriminate; subst; now left.
Qed.

Lemma SFcompare_trans x y z c :
    SFcompare x y = Some c -> SFcompare y z = Some c -> SFcompare x z = Some c.
Proof.
    destruct x as [s|s| |s m e], y as [s'|s'| |s' m' e'], z as [s''|s''| |s'' m'' e''];
      try destruct s; try destruct s'; try destruct s''; simpl; try discriminate;
      intros H1 H2; try congruence;
      cmp_cases; simpl in *; subst; try congruence; try lia.
Qed.

Lemma SFcompare_Eq_l x y z :
    SFcompare x y = Some Eq -> SFcompare x z = SFcompare y z.
Proof.
    intros H. destruct (SFcompare_Eq _ _ H) as [->|(s & s' & -> & ->)]; [reflexivity|].
    destruct z as [s''|s''| |s'' m'' e'']; reflexivity.
Qed.

Lemma SFcompare_Eq_r x y z :
    SFcompare x y = Some Eq -> SFcompare z x = SFcompare z y.
Proof.
    intros H. destruct (SFcompare_Eq _ _ H) as [->|(s & s' & -> & ->)]; [reflexivity|].
    destruct z as [s''|s''| |s'' m'' e'']; reflexivity.
Qed.

Lemma SFcompare_total x y :
    x <> S754_nan -> y <> S754_nan -> exists c, SFcompare x y = Some c.
Proof.
    destruct x as [s|s| |s m e], y as [s'|s'| |s' m' e']; simpl; intros; try congruence; eauto.
Qed.
End SpecOrder.


(** ** Mantissas, shifts and rounding *)

#[local] Open Scope Z_scope.

Lemma digits2_pos_bounds (m : positive) :
2 ^ (Zpos (digits2_pos m) - 1) <= Zpos m < 2 ^ Zpos (digits2_pos m).
Proof.
induction m as [m IH|m IH|]; simpl digits2_pos.
- rewrite Pos2Z.inj_succ, Z.pow_succ_r by lia.
  replace (Z.succ (Zpos (digits2_pos m)) - 1) with (Z.succ (Zpos (digits2_pos m) - 1)) by lia.
  rewrite Z.pow_succ_r by lia. lia.
- rewrite Pos2Z.inj_succ, Z.pow_succ_r by lia.
  replace (Z.succ (Zpos (digits2_pos m)) - 1) with (Z.succ (Zpos (digits2_pos m) - 1)) by lia.
  rewrite Z.pow_succ_r by lia. lia.
- simpl. lia.
Qed.

Lemma digits2_pos_log2 (m : positive) :
Zpos (digits2_pos m) = Z.log2 (Zpos m) + 1.
Proof.
pose proof (digits2_pos_bounds m) as [H1 H2].
symmetry. rewrite (Z.log2_unique (Zpos m) (Zpos (digits2_pos m) - 1)); try lia.
split; trivial. now replace (Z.succ (Zpos (digits2_pos m) - 1)) with (Zpos (digits2_pos m)) by lia.
Qed.

Lemma Zdigits2_log2 (m : Z) : 0 < m -> Zdigits2 m = Z.log2 m + 1.
Proof. destruct m; try lia. intros _. apply digits2_pos_log2. Qed.

Lemma shr_1_m (r : shr_record) :
0 <= shr_m r -> shr_m (shr_1 r) = shr_m r / 2.
Proof.
destruct r as [m rb sb]. cbn [shr_m shr_1]. intros H.
destruct m as [|[p|p|]|p]; cbn [shr_m]; try lia.
- reflexivity.
- rewrite Pos2Z.inj_xI. apply Z.div_unique with 1; lia.
- rewrite Pos2Z.inj_xO. apply Z.div_unique with 0; lia.
- reflexivity.
Qed.

Lemma iter_shr_1_m (p : positive) :
forall r, 0 <= shr_m r -> shr_m (iter_pos shr_1 p r) = shr_m r / 2 ^ Zpos p.
Proof.
induction p as [p IH|p IH|]; intros r Hr; cbn [iter_pos].
- assert (E : 2 ^ Zpos p~1 = 2 * (2 ^ Zpos p * 2 ^ Zpos p)).
  { rewrite Pos2Z.inj_xI, <- Z.pow_add_r, <- Z.pow_succ_r by lia. f_equal. lia. }
  assert (H1 : 0 <= shr_m (shr_1 r)) by (rewrite shr_1_m by trivial; apply Z.div_pos; lia).
  assert (H2 : 0 <= shr_m (iter_pos shr_1 p (shr_1 r)))
    by (rewrite IH by trivial; apply Z.div_pos; lia).
  rewrite IH, IH, shr_1_m, E by trivial.
  now rewrite <- !Z.div_div by lia.
- assert (E : 2 ^ Zpos p~0 = 2 ^ Zpos p * 2 ^ Zpos p).
  { rewrite Pos2Z.inj_xO, <- Z.pow_add_r by lia. f_equal. lia. }
  assert (H2 : 0 <= shr_m (iter_pos shr_1 p r))
    by (rewrite IH by trivial; apply Z.div_pos; lia).
  rewrite IH, IH, E by trivial.
  now rewrite <- Z.div_div by lia.
- now rewrite shr_1_m.
Qed.

Section Rounding.
Variables prec emax : Z.
Hypothesis prec_pos : 0 < prec.

#[local] Notation "'fexp'" := (SpecFloat.fexp prec emax).
#[local] Notation "'emin'" := (SpecFloat.emin prec emax).

Lemma fexp_mono e e' : e <= e' -> fexp e <= fexp e'.
Proof. unfold SpecFloat.fexp. lia. Qed.

Lemma fexp_ge_emin e : emin <= fexp e.
Proof. unfold SpecFloat.fexp. lia. Qed.

(** [shr_fexp] shifts a mantissa right up to the exponent of its format:
    the new exponent is the larger of [e] and [fexp], the new mantissa the
    quotient by the power of two between them. *)
Lemma shr_fexp_spec m e l :
  0 <= m ->
  let e' := Z.max e (fexp (Zdigits2 m + e)) in
  snd (shr_fexp prec emax m e l) = e' /\
  shr_m (fst (shr_fexp prec emax m e l)) = m / 2 ^ (e' - e).
Proof.
  intros Hm e'. unfold shr_fexp, shr.
  assert (Hr : shr_m (shr_record_of_loc m l) = m) by (now destruct l as [|[ | | ]]).
  destruct (fexp (Zdigits2 m + e) - e) as [|p|p] eqn:E; cbn [fst snd].
  - replace e' with e by lia. now rewrite Z.sub_diag, Z.div_1_r.
  - replace e' with (e + Zpos p) by lia. split; trivial.
    rewrite iter_shr_1_m by lia. rewrite Hr. f_equal. f_equal. lia.
  - replace e' with e by lia. now rewrite Z.sub_diag, Z.div_1_r.
Qed.

Lemma round_nearest_even_bounds m l :
  m <= round_nearest_even m l <= m + 1.
Proof.
  destruct l as [|[ | | ]]; cbn [round_nearest_even]; try lia.
  destruct (Z.even m); lia.
Qed.

(** The two shifts and the rounding between them, in integers. *)
Lemma binary_round_aux_spec s m e l :
  0 <= m ->
  exists m2,
    let e1 := Z.max e (fexp (Zdigits2 m + e)) in
    let e3 := Z.max e1 (fexp (Zdigits2 m2 + e1)) in
    m / 2 ^ (e1 - e) <= m2 <= m / 2 ^ (e1 - e) + 1 /\
    binary_round_aux prec emax s m e l =
      match m2 / 2 ^ (e3 - e1) with
      | Z0 => S754_zero s
      | Zpos p => if e3 <=? emax - prec then S754_finite s p e3 else S754_infinity s
      | Zneg _ => S754_nan
      end.
Proof.
  intros Hm. unfold binary_round_aux.
  destruct (shr_fexp_spec m e l Hm) as [He1 Hm1].
  destruct (shr_fexp prec emax m e l) as [r1 e1] eqn:E1. cbn [fst snd] in He1, Hm1.
  set (m2 := round_nearest_even (shr_m r1) (loc_of_shr_record r1)).
  pose proof (round_nearest_even_bounds (shr_m r1) (loc_of_shr_record r1)) as Hb.
  fold m2 in Hb.
  assert (H1 : 0 <= shr_m r1) by (rewrite Hm1; apply Z.div_pos; lia).
  assert (Hm2 : 0 <= m2) by lia.
  destruct (shr_fexp_spec m2 e1 loc_Exact Hm2) as [He3 Hm3].
  destruct (shr_fexp prec emax m2 e1 loc_Exact) as [r3 e3] eqn:E3. cbn [fst snd] in He3, Hm3.
  exists m2. cbn zeta. subst e1 e3. rewrite <- Hm1. split; trivial.
  now rewrite Hm3.
Qed.


Lemma binary_round_aux_signed s m e l :
  0 <= m -> SFsigned s (binary_round_aux prec emax s m e l).
Proof.
  intros Hm. destruct (binary_round_aux_spec s m e l Hm) as (m2 & Hb & ->).
  cbn zeta in *.
  set (e1 := Z.max e (fexp (Zdigits2 m + e))) in *.
  set (e3 := Z.max e1 (fexp (Zdigits2 m2 + e1))).
  assert (0 <= m / 2 ^ (e1 - e)) by (apply Z.div_pos; lia).
  assert (H3 : 0 <= m2 / 2 ^ (e3 - e1)) by (apply Z.div_pos; lia).
  destruct (m2 / 2 ^ (e3 - e1)); try lia; cbn; trivial.
  destruct (e3 <=? emax - prec); reflexivity.
Qed.

Lemma shl_align_spec mx ex ex' :
  let e := Z.min ex ex' in
  snd (shl_align mx ex ex') = e /\
  Zpos (fst (shl_align mx ex ex')) = Zpos mx * 2 ^ (ex - e).
Proof.
  unfold shl_align. destruct (ex' - ex) as [|d|d] eqn:E; cbn [fst snd].
  - replace (Z.min ex ex') with ex by lia. rewrite Z.sub_diag. cbn. lia.
  - replace (Z.min ex ex') with ex by lia. rewrite Z.sub_diag. cbn. lia.
  - replace (Z.min ex ex') with ex' by lia. split; trivial.
    change (Pos.iter xO mx d) with (shift_pos d mx).
    rewrite shift_pos_correct. replace (ex - ex') with (Zpos d) by lia.
    change (Z.pow_pos 2 d) with (2 ^ Zpos d). lia.
Qed.

Lemma binary_round_signed s m e :
  SFsigned s (binary_round prec emax s m e).
Proof.
  unfold binary_round.
  destruct (shl_align m e (fexp (Zpos (digits2_pos m) + e))) as [mz ez].
  apply binary_round_aux_signed. lia.
Qed.

(** A quotient by a power of two below the leading digit is positive. *)
Lemma div_pow2_pos m k :
  0 < m -> 0 <= k < Zdigits2 m -> 0 < m / 2 ^ k.
Proof.
  intros Hm Hk. apply Z.div_str_pos. split; [apply Z.pow_pos_nonneg; lia|].
  rewrite Zdigits2_log2 in Hk by trivial.
  apply Z.le_trans with (2 ^ Z.log2 m); [apply Z.pow_le_mono_r; lia|].
  apply Z.log2_spec; lia.
Qed.

(** The heart of the monotony of addition: rounding a mantissa whose value
    is at least that of a canonical float gives at least that float. *)
Lemma binary_round_aux_lower ma ea m e l :
  canonical_mantissa prec emax ma ea = true ->
  e <= ea ->
  Zpos ma * 2 ^ (ea - e) <= m ->
  match SFcompare (S754_finite false ma ea) (binary_round_aux prec emax false m e l) with
  | Some (Lt | Eq) => True
  | _ => False
  end.
Proof.
  intros Hc He Hle.
  assert (Hp : 0 < 2 ^ (ea - e)) by (apply Z.pow_pos_nonneg; lia).
  assert (Hm : 0 < m) by nia.
  unfold canonical_mantissa in Hc. apply Z.eqb_eq in Hc.
  destruct (binary_round_aux_spec false m e l (Z.lt_le_incl _ _ Hm)) as (m2 & Hb & ->).
  cbn zeta in *.
  set (e1 := Z.max e (fexp (Zdigits2 m + e))) in *.
  set (e3 := Z.max e1 (fexp (Zdigits2 m2 + e1))).
  (* the exponent does not go below [ea] *)
  assert (Hd : Zpos (digits2_pos ma) + ea <= Zdigits2 m + e).
  { rewrite digits2_pos_log2, Zdigits2_log2 by trivial.
    assert (Z.log2 (Zpos ma * 2 ^ (ea - e)) <= Z.log2 m) by now apply Z.log2_le_mono.
    rewrite Z.log2_mul_pow2 in H by lia. lia. }
  assert (He1 : ea <= e1).
  { pose proof (fexp_mono _ _ Hd). lia. }
  assert (Hemin : emin <= ea) by (rewrite <- Hc; apply fexp_ge_emin).
  (* the first shift leaves at least [ma] at exponent [ea], and is positive above *)
  assert (Hm1 : 0 < m / 2 ^ (e1 - e) /\ (e1 = ea -> Zpos ma <= m / 2 ^ (e1 - e))).
  { split.
    - destruct (Z.eq_dec e1 e) as [E|E]; [rewrite E, Z.sub_diag, Z.div_1_r; lia|].
      apply div_pow2_pos; trivial. unfold SpecFloat.fexp in *. lia.
    - intros ->. apply Z.div_le_lower_bound; lia. }
  destruct Hm1 as [Hm1 Hm1'].
  assert (Hm2 : 0 < m2) by lia.
  assert (Hm3 : 0 < m2 / 2 ^ (e3 - e1) /\ (e3 = e1 -> m2 / 2 ^ (e3 - e1) = m2)).
  { split.
    - destruct (Z.eq_dec e3 e1) as [E|E]; [rewrite E, Z.sub_diag, Z.div_1_r; lia|].
      apply div_pow2_pos; trivial. unfold SpecFloat.fexp in *. lia.
    - intros ->. now rewrite Z.sub_diag, Z.div_1_r. }
  destruct Hm3 as [Hm3 Hm3'].
  destruct (m2 / 2 ^ (e3 - e1)) as [|m3|m3] eqn:E3; try lia.
  destruct (e3 <=? emax - prec); cbn; trivial.
  destruct (Z.compare_spec ea e3) as [E|E|E]; trivial; try lia.
  change (Pos.compare_cont Eq ma m3) with (Pos.compare ma m3).
  destruct (Pos.compare_spec ma m3); trivial. lia.
Qed.

Lemma binary_round_lower ma ea m e :
  canonical_mantissa prec emax ma ea = true ->
  e <= ea ->
  Zpos ma * 2 ^ (ea - e) <= Zpos m ->
  match SFcompare (S754_finite false ma ea) (binary_round prec emax false m e) with
  | Some (Lt | Eq) => True
  | _ => False
  end.
Proof.
  intros Hc He Hle. unfold binary_round.
  destruct (shl_align_spec m e (fexp (Zpos (digits2_pos m) + e))) as [H1 H2].
  destruct (shl_align m e (fexp (Zpos (digits2_pos m) + e))) as [mz ez].
  cbn [fst snd] in H1, H2.
  apply binary_round_aux_lower; trivial; try lia.
  rewrite H2. subst ez.
  set (ez := Z.min e (fexp (Zpos (digits2_pos m) + e))).
  replace (ea - ez) with ((ea - e) + (e - ez)) by lia.
  rewrite Z.pow_add_r by lia.
  assert (0 < 2 ^ (e - ez)) by (apply Z.pow_pos_nonneg; lia).
  nia.
Qed.



Lemma SFadd_nonneg_le x y :
  SpecFloat.valid_binary prec emax x = true -> SFnonneg x -> SFnonneg y ->
  SFle x (SFadd prec emax x y).
Proof.
  intros Hv Hx Hy. unfold SFle.
  destruct x as [sx|[|]| |[|] mx ex], y as [sy|[|]| |[|] my ey];
    cbn in Hx, Hy; try contradiction;
    try (destruct sx); try (destruct sy); cbn [SFadd SFcompare]; trivial.
  - now rewrite Z.compare_refl, Pos.compare_cont_refl.
  - now rewrite Z.compare_refl, Pos.compare_cont_refl.
  - cbn [valid_binary] in Hv. unfold bounded in Hv.
    apply andb_prop in Hv. destruct Hv as [Hc _].
    destruct (shl_align_spec mx ex (Z.min ex ey)) as [_ H1].
    destruct (shl_align_spec my ey (Z.min ex ey)) as [_ H2].
    cbn [cond_Zopp]. rewrite Pos2Z.add_pos_pos. cbn [binary_normalize].
    apply binary_round_lower; [exact Hc|lia|].
    rewrite Pos2Z.inj_add, H1.
    replace (Z.min ex (Z.min ex ey)) with (Z.min ex ey) by lia. lia.
Qed.


Lemma SFsigned_not_nan s x : SFsigned s x -> x <> S754_nan.
Proof. destruct x; cbn; congruence. Qed.

Lemma SFsigned_nonneg x : SFsigned false x -> SFnonneg x.
Proof. destruct x as [s|s| |s m e]; cbn; intros; subst; trivial. Qed.


Lemma binary_normalize_not_nan m e sz :
  binary_normalize prec emax m e sz <> S754_nan.
Proof.
  destruct m; cbn [binary_normalize]; try discriminate;
    eapply SFsigned_not_nan, binary_round_signed.
Qed.

Lemma SFadd_not_nan x y :
  SFfinite x -> y <> S754_nan -> SFadd prec emax x y <> S754_nan.
Proof.
  destruct x as [sx|sx| |sx mx ex]; cbn; try contradiction. intros _.
  destruct y as [sy|sy| |sy my ey]; try congruence; intros _; try discriminate.
  apply binary_normalize_not_nan.
Qed.

Lemma SFmul_not_nan_l x y :
  SFfinite x -> y <> S754_nan -> SFmul prec emax x y <> S754_nan.
Proof.
  destruct x as [sx|sx| |sx mx ex]; cbn; try contradiction. intros _.
  destruct y as [sy|sy| |sy my ey]; try congruence; intros _; try discriminate.
  eapply SFsigned_not_nan, binary_round_aux_signed. lia.
Qed.

Lemma SFmul_not_nan_r x y :
  x <> S754_nan -> SFfinite y -> SFmul prec emax x y <> S754_nan.
Proof.
  destruct y as [sy|sy| |sy my ey]; cbn; try contradiction. intros Hx _.
  destruct x as [sx|sx| |sx mx ex]; try congruence; try discriminate.
  eapply SFsigned_not_nan, binary_round_aux_signed. lia.
Qed.

Lemma SFdiv_core_binary_nonneg m1 e1 m2 e2 :
  0 <= fst (fst (SFdiv_core_binary prec emax (Zpos m1) e1 (Zpos m2) e2)).
Proof.
  unfold SFdiv_core_binary.
  set (sh := _ - _ - _).
  set (m' := match sh with Z0 => Zpos m1 | Zpos _ => Z.shiftl (Zpos m1) sh | Zneg _ => 0 end).
  assert (Hm' : 0 <= m').
  { subst m'. destruct sh; try lia. apply Z.shiftl_nonneg. lia. }
  pose proof (Z_div_mod m' (Zpos m2) eq_refl) as H.
  destruct (Z.div_eucl m' (Zpos m2)) as [q r]. cbn [fst]. nia.
Qed.

Lemma SFdiv_not_nan x y :
  x <> S754_nan -> SFfinite y ->
  SFdiv prec emax x y <> S754_nan.
Proof.
  destruct y as [sy|sy| |sy my ey]; cbn [SFfinite]; try contradiction. intros Hx _.
  destruct x as [sx|sx| |sx mx ex]; try congruence; cbn [SFdiv]; try discriminate.
  pose proof (SFdiv_core_binary_nonneg mx ex my ey) as H.
  destruct (SFdiv_core_binary prec emax (Zpos mx) ex (Zpos my) ey) as [[mz ez] lz].
  eapply SFsigned_not_nan, binary_round_aux_signed. exact H.
Qed.

Lemma SFmul_nonneg x y :
  SFnonneg x -> SFnonneg y -> SFfinite x \/ SFfinite y ->
  SFnonneg (SFmul prec emax x y).
Proof.
  destruct x as [sx|[|]| |[|] mx ex], y as [sy|[|]| |[|] my ey];
    cbn [SFnonneg SFfinite SFmul]; try tauto; intros _ _ _.
  apply SFsigned_nonneg. cbn [xorb]. apply binary_round_aux_signed. lia.
Qed.

Lemma SFdiv_nonneg x y :
  SFnonneg x -> SFnonneg y -> SFfinite y ->
  SFnonneg (SFdiv prec emax x y).
Proof.
  destruct x as [sx|[|]| |[|] mx ex], y as [sy|[|]| |[|] my ey];
    cbn [SFnonneg SFfinite SFdiv]; try tauto; intros _ _ _.
  pose proof (SFdiv_core_binary_nonneg mx ex my ey) as H.
  destruct (SFdiv_core_binary prec emax (Zpos mx) ex (Zpos my) ey) as [[mz ez] lz].
  apply SFsigned_nonneg. cbn [xorb]. apply binary_round_aux_signed. exact H.
Qed.

Lemma SFmul_comm x y : SFmul prec emax x y = SFmul prec emax y x.
Proof.
  destruct x as [sx|sx| |sx mx ex], y as [sy|sy| |sy my ey];
    cbn [SFmul]; try reflexivity; try (now rewrite xorb_comm).
  now rewrite xorb_comm, Pos.mul_comm, Z.add_comm.
Qed.

Lemma SFadd_comm x y : SFadd prec emax x y = SFadd prec emax y x.
Proof.
  destruct x as [sx|sx| |sx mx ex], y as [sy|sy| |sy my ey];
    cbn [SFadd]; try reflexivity;
    try (destruct sx, sy; reflexivity).
  now rewrite Z.add_comm, (Z.min_comm ex ey).
Qed.
End Rounding.

#[local] Close Scope Z_scope.

(** ** The order of the primitive floats *)

Lemma ltb_cmp a b :
  (a <? b) = match cmp a b with Some Lt => true | _ => false end.
Proof. now rewrite ltb_spec. Qed.

Lemma leb_cmp a b :
  (a <=? b) = match cmp a b with Some (Lt | Eq) => true | _ => false end.
Proof. now rewrite leb_spec. Qed.

Lemma eqb_cmp a b :
  (a =? b) = match cmp a b with Some Eq => true | _ => false end.
Proof. now rewrite eqb_spec. Qed.

Lemma is_nan_Prim2SF a : is_nan a = true <-> Prim2SF a = S754_nan.
Proof.
  unfold is_nan. rewrite eqb_cmp. unfold cmp. split.
  - destruct (Prim2SF a) eqn:E; trivial;
      rewrite SFcompare_refl by discriminate; discriminate.
  - intros ->. reflexivity.
Qed.

Lemma is_nan_false a : is_nan a = false <-> Prim2SF a <> S754_nan.
Proof.
  rewrite <- is_nan_Prim2SF. destruct (is_nan a); split; congruence.
Qed.

Lemma is_nan_eq a : is_nan a = true -> a = nan.
Proof.
  intros H. apply Prim2SF_inj. apply is_nan_Prim2SF in H. now rewrite H.
Qed.

Lemma cmp_total a b :
  is_nan a = false -> is_nan b = false -> exists c, cmp a b = Some c.
Proof.
  rewrite !is_nan_false. apply SFcompare_total.
Qed.

Lemma cmp_sym a b : cmp b a = option_map CompOpp (cmp a b).
Proof. apply SFcompare_sym. Qed.

Lemma cmp_nan_l a b : is_nan a = true -> cmp a b = None.
Proof. unfold cmp. rewrite is_nan_Prim2SF. now intros ->. Qed.

Lemma cmp_nan_r a b : is_nan b = true -> cmp a b = None.
Proof.
  unfold cmp. rewrite is_nan_Prim2SF. intros ->. now destruct (Prim2SF a).
Qed.

Lemma cmp_Some_not_nan a b c :
  cmp a b = Some c -> is_nan a = false /\ is_nan b = false.
Proof.
  intros H. split.
  - destruct (is_nan a) eqn:E; trivial. rewrite (cmp_nan_l a b E) in H. discriminate.
  - destruct (is_nan b) eqn:E; trivial. rewrite (cmp_nan_r a b E) in H. discriminate.
Qed.

(* equal as numbers and not zero: the same float *)
Lemma cmp_Eq_eq a b : cmp a b = Some Eq -> is_zero a = false -> a = b.
Proof.
  intros H Hz. apply Prim2SF_inj.
  destruct (SFcompare_Eq _ _ H) as [E|(s & s' & E & E')]; trivial.
  exfalso. unfold is_zero in Hz. rewrite eqb_cmp in Hz. unfold cmp in Hz.
  rewrite E in Hz. destruct s; discriminate.
Qed.

Lemma is_zero_cmp_Eq a b : cmp a b = Some Eq -> is_zero b = is_zero a.
Proof.
  intros H. unfold is_zero. rewrite !eqb_cmp. unfold cmp in *.
  now rewrite (SFcompare_Eq_l _ _ _ H).
Qed.

Lemma cmp_refl a : is_nan a = false -> cmp a a = Some Eq.
Proof. rewrite is_nan_false. apply SFcompare_refl. Qed.

(** [<=] composes, and is strict as soon as one side is. *)
Lemma cmp_trans a b c c1 c2 :
  cmp a b = Some c1 -> cmp b c = Some c2 ->
  c1 <> Gt -> c2 <> Gt ->
  cmp a c = Some (match c1, c2 with Eq, Eq => Eq | _, _ => Lt end).
Proof.
  unfold cmp. intros H1 H2 N1 N2.
  destruct c1; try congruence.
  - rewrite (SFcompare_Eq_l _ _ _ H1), H2. destruct c2; congruence.
  - destruct c2; try congruence.
    + now rewrite <- (SFcompare_Eq_r _ _ _ H2).
    + now apply SFcompare_trans with (Prim2SF b).
Qed.

Lemma leb_refl a : is_nan a = false -> (a <=? a) = true.
Proof. intros H. now rewrite leb_cmp, cmp_refl. Qed.

Lemma ltb_leb a b : (a <? b) = true -> (a <=? b) = true.
Proof. rewrite ltb_cmp, leb_cmp. now destruct (cmp a b) as [[ | | ]|]. Qed.

Lemma ltb_asym a b : (a <? b) = true -> (b <? a) = false.
Proof.
  rewrite !ltb_cmp, (cmp_sym a b). now destruct (cmp a b) as [[ | | ]|].
Qed.

Lemma ltb_not_leb a b : (a <? b) = true -> (b <=? a) = false.
Proof.
  rewrite ltb_cmp, leb_cmp, (cmp_sym a b). now destruct (cmp a b) as [[ | | ]|].
Qed.

Lemma not_ltb_leb a b :
  is_nan a = false -> is_nan b = false -> (b <? a) = false -> (a <=? b) = true.
Proof.
  intros Ha Hb. rewrite ltb_cmp, leb_cmp, (cmp_sym a b).
  destruct (cmp_total a b Ha Hb) as [c ->]. now destruct c.
Qed.

Lemma leb_not_ltb a b : (a <=? b) = true -> (b <? a) = false.
Proof.
  rewrite ltb_cmp, leb_cmp, (cmp_sym a b). now destruct (cmp a b) as [[ | | ]|].
Qed.

Lemma leb_not_nan a b :
  (a <=? b) = true -> is_nan a = false /\ is_nan b = false.
Proof.
  rewrite leb_cmp. destruct (cmp a b) as [c|] eqn:E; try discriminate.
  intros _. now apply cmp_Some_not_nan with c.
Qed.

Lemma ltb_not_nan a b :
  (a <? b) = true -> is_nan a = false /\ is_nan b = false.
Proof. intros H. now apply leb_not_nan, ltb_leb. Qed.

Lemma leb_trans a b c :
  (a <=? b) = true -> (b <=? c) = true -> (a <=? c) = true.
Proof.
  rewrite !leb_cmp.
  destruct (cmp a b) as [c1|] eqn:E1; try discriminate.
  destruct (cmp b c) as [c2|] eqn:E2; try discriminate.
  intros H1 H2.
  rewrite (cmp_trans a b c c1 c2 E1 E2) by (intros ->; discriminate).
  now destruct c1, c2.
Qed.

Lemma leb_ltb_trans a b c :
  (a <=? b) = true -> (b <? c) = true -> (a <? c) = true.
Proof.
  rewrite leb_cmp, !ltb_cmp.
  destruct (cmp a b) as [c1|] eqn:E1; try discriminate.
  destruct (cmp b c) as [c2|] eqn:E2; try discriminate.
  intros H1 H2.
  rewrite (cmp_trans a b c c1 c2 E1 E2) by (intros ->; discriminate).
  now destruct c1, c2.
Qed.

Lemma ltb_leb_trans a b c :
  (a <? b) = true -> (b <=? c) = true -> (a <? c) = true.
Proof.
  rewrite leb_cmp, !ltb_cmp.
  destruct (cmp a b) as [c1|] eqn:E1; try discriminate.
  destruct (cmp b c) as [c2|] eqn:E2; try discriminate.
  intros H1 H2.
  rewrite (cmp_trans a b c c1 c2 E1 E2) by (intros ->; discriminate).
  now destruct c1, c2.
Qed.

(** No order between two numbers: they are equal. *)
Lemma not_ltb_cmp_Eq a b :
  is_nan a = false -> is_nan b = false ->
  (a <? b) = false -> (b <? a) = false -> cmp a b = Some Eq.
Proof.
  intros Ha Hb. rewrite !ltb_cmp, (cmp_sym a b).
  destruct (cmp_total a b Ha Hb) as [c ->]. now destruct c.
Qed.

(** ** [Math.min], [Math.max] and the clamp *)

Lemma is_nan_nan : is_nan nan = true.
Proof. reflexivity. Qed.

Lemma Math_min_nan a b : is_nan a || is_nan b = true -> Math.min a b = nan.
Proof. unfold Math.min. now intros ->. Qed.

Lemma Math_max_nan a b : is_nan a || is_nan b = true -> Math.max a b = nan.
Proof. unfold Math.max. now intros ->. Qed.

Lemma Math_min_either a b :
  is_nan a = false -> is_nan b = false -> Math.min a b = a \/ Math.min a b = b.
Proof.
  intros Ha Hb. unfold Math.min. rewrite Ha, Hb. cbn [orb].
  destruct (a <? b); auto. destruct (b <? a); auto.
  destruct (Math.is_neg_zero a); auto.
Qed.

Lemma Math_max_either a b :
  is_nan a = false -> is_nan b = false -> Math.max a b = a \/ Math.max a b = b.
Proof.
  intros Ha Hb. unfold Math.max. rewrite Ha, Hb. cbn [orb].
  destruct (b <? a); auto. destruct (a <? b); auto.
  destruct (Math.is_pos_zero a); auto.
Qed.

Lemma Math_min_not_nan a b :
  is_nan a = false -> is_nan b = false -> is_nan (Math.min a b) = false.
Proof. intros Ha Hb. now destruct (Math_min_either a b Ha Hb) as [-> | ->]. Qed.

Lemma Math_max_not_nan a b :
  is_nan a = false -> is_nan b = false -> is_nan (Math.max a b) = false.
Proof. intros Ha Hb. now destruct (Math_max_either a b Ha Hb) as [-> | ->]. Qed.

(** Away from the zeros, [Math.min] and [Math.max] are plain selections. *)
Lemma Math_min_select a b :
  is_nan a = false -> is_nan b = false -> is_zero a = false ->
  Math.min a b = if a <? b then a else b.
Proof.
  intros Ha Hb Hz. unfold Math.min, Math.is_neg_zero.
  rewrite Ha, Hb, Hz. cbn [orb andb].
  destruct (a <? b); trivial. now destruct (b <? a).
Qed.

Lemma Math_max_select a b :
  is_nan a = false -> is_nan b = false -> is_zero a = false ->
  Math.max a b = if b <? a then a else b.
Proof.
  intros Ha Hb Hz. unfold Math.max, Math.is_pos_zero.
  rewrite Ha, Hb, Hz. cbn [orb andb].
  destruct (b <? a); trivial. now destruct (a <? b).
Qed.

(** [Phaser.Math.Clamp] between two non-zero bounds in order is the clamp of
    the specification, on every float (NaN is clamped to NaN by both). *)
Lemma Clamp_clamp_to v lo hi :
  is_zero lo = false -> is_zero hi = false -> (lo <=? hi) = true ->
  Phaser.Clamp v lo hi = clamp_to lo hi v.
Proof.
  intros Zlo Zhi Hle. destruct (leb_not_nan _ _ Hle) as [Nlo Nhi].
  unfold Phaser.Clamp, clamp_to.
  destruct (is_nan v) eqn:Nv.
  - rewrite (Math_min_nan hi v) by (rewrite Nv; apply orb_true_r).
    rewrite Math_max_nan by (rewrite is_nan_nan; apply orb_true_r).
    rewrite !ltb_cmp, (cmp_nan_l v lo Nv), (cmp_nan_r hi v Nv).
    symmetry. now apply is_nan_eq.
  - rewrite (Math_min_select hi v) by trivial.
    destruct (hi <? v) eqn:E1.
    + rewrite Math_max_select, (leb_not_ltb lo hi) by trivial.
      now rewrite (ltb_asym lo v) by now apply leb_ltb_trans with hi.
    + now rewrite Math_max_select.
Qed.

Lemma clamp_to_within lo hi v :
  is_nan v = false -> (lo <=? hi) = true -> within lo hi (clamp_to lo hi v) = true.
Proof.
  intros Nv Hle. destruct (leb_not_nan _ _ Hle) as [Nlo Nhi].
  unfold within, clamp_to. apply andb_true_intro.
  destruct (v <? lo) eqn:E1; [now rewrite leb_refl|].
  destruct (hi <? v) eqn:E2; [now rewrite leb_refl|].
  split; now apply not_ltb_leb.
Qed.

(** ** Arithmetic of the primitive floats *)

Lemma prec_pos : (0 < prec)%Z.
Proof. reflexivity. Qed.

Lemma leb_SFle a b : (a <=? b) = true <-> SFle (Prim2SF a) (Prim2SF b).
Proof.
  rewrite leb_spec. unfold SFleb, SFle.
  destruct (SFcompare (Prim2SF a) (Prim2SF b)) as [[ | | ]|];
    split; trivial; try discriminate; contradiction.
Qed.

Lemma nonneg_SF a : (0 <=? a) = true <-> SFnonneg (Prim2SF a).
Proof.
  rewrite leb_spec. unfold SFleb. change (Prim2SF 0) with (S754_zero false).
  destruct (Prim2SF a) as [s|[|]| |[|] m e]; cbn;
    split; trivial; try discriminate; contradiction.
Qed.

Lemma not_nan_SF a : is_nan a = false <-> Prim2SF a <> S754_nan.
Proof. apply is_nan_false. Qed.

(** A float between a positive number and a finite one is finite and
    positive. *)
Lemma within_finite lo hi v :
  SFfinite (Prim2SF lo) -> SFnonneg (Prim2SF lo) -> SFfinite (Prim2SF hi) ->
  within lo hi v = true ->
  SFfinite (Prim2SF v) /\ SFnonneg (Prim2SF v).
Proof.
  unfold within. rewrite !leb_spec. unfold SFleb.
  destruct (Prim2SF lo) as [sl|sl| |[|] ml el]; cbn [SFfinite SFnonneg]; try tauto.
  destruct (Prim2SF hi) as [sh|sh| |sh mh eh]; cbn [SFfinite]; try tauto.
  intros _ _ _.
  destruct (Prim2SF v) as [s|[|]| |[|] m e]; cbn; intros H;
    try discriminate; try tauto.
Qed.

Lemma add_not_nan a b :
  SFfinite (Prim2SF a) -> is_nan b = false -> is_nan (a + b) = false.
Proof.
  rewrite !not_nan_SF, add_spec. apply SFadd_not_nan.
Qed.

Lemma mul_not_nan_l a b :
  SFfinite (Prim2SF a) -> is_nan b = false -> is_nan (a * b) = false.
Proof.
  rewrite !not_nan_SF, mul_spec. apply SFmul_not_nan_l.
Qed.

Lemma mul_not_nan_r a b :
  is_nan a = false -> SFfinite (Prim2SF b) -> is_nan (a * b) = false.
Proof.
  rewrite !not_nan_SF, mul_spec. apply SFmul_not_nan_r.
Qed.

Lemma div_not_nan a b :
  is_nan a = false -> SFfinite (Prim2SF b) -> is_nan (a / b) = false.
Proof.
  rewrite !not_nan_SF, div_spec. apply SFdiv_not_nan.
Qed.

(** Adding a number that is not negative to one that is not negative does
    not decrease it: rounding never crosses the first operand. *)
Lemma add_nonneg_le a x :
  (0 <=? a) = true -> (0 <=? x) = true -> (a <=? a + x) = true.
Proof.
  intros Ha Hx. apply nonneg_SF in Ha, Hx. apply leb_SFle. rewrite add_spec.
  apply SFadd_nonneg_le; trivial; [exact prec_pos|apply Prim2SF_valid].
Qed.

Lemma add_nonneg a x :
  (0 <=? a) = true -> (0 <=? x) = true -> (0 <=? a + x) = true.
Proof.
  intros Ha Hx. apply leb_trans with a; trivial. now apply add_nonneg_le.
Qed.

Lemma mul_nonneg a b :
  (0 <=? a) = true -> (0 <=? b) = true ->
  SFfinite (Prim2SF a) \/ SFfinite (Prim2SF b) ->
  (0 <=? a * b) = true.
Proof.
  rewrite !nonneg_SF, mul_spec. apply SFmul_nonneg.
Qed.

Lemma div_nonneg a b :
  (0 <=? a) = true -> (0 <=? b) = true -> SFfinite (Prim2SF b) ->
  (0 <=? a / b) = true.
Proof.
  rewrite !nonneg_SF, div_spec. apply SFdiv_nonneg.
Qed.

Lemma add_comm a b : a + b = b + a.
Proof. apply Prim2SF_inj. rewrite !add_spec. apply SFadd_comm. Qed.

Lemma mul_comm a b : a * b = b * a.
Proof. apply Prim2SF_inj. rewrite !mul_spec. apply SFmul_comm. Qed.

(** * The motion model *)

Arguments Math.min : simpl never.
Arguments Math.max : simpl never.
Arguments Math.floor : simpl never.
Arguments Phaser.Clamp : simpl never.
Arguments Phaser.Linear : simpl never.
Arguments clampedDeltaTime : simpl never.

(** ** What each step leaves alone *)

Ltac step_frame :=
  intros;
  unfold applyPhysics, updateForwardVelocity, constrainBirdPosition,
    updateCamera, updateWorldPosition, updateBackgroundScrolling;
  repeat match goal with
  | |- context [match backgroundSprite ?s with _ => _ end] =>
      destruct (backgroundSprite s)
  | |- context [if ?b then _ else _] => destruct b eqn:?
  end;
  cbn; congruence.

Lemma applyPhysics_bird_x deltaTime s :
  Sprite.x (bird (applyPhysics deltaTime s)) = Sprite.x (bird s).
Proof. step_frame. Qed.

Lemma applyPhysics_bird_y deltaTime s :
  Sprite.y (bird (applyPhysics deltaTime s)) = Sprite.y (bird s).
Proof. step_frame. Qed.

Lemma applyPhysics_bird_velocity_x deltaTime s :
  Sprite.velocity_x (bird (applyPhysics deltaTime s)) = Sprite.velocity_x (bird s).
Proof. step_frame. Qed.

Lemma applyPhysics_isThrusting deltaTime s :
  isThrusting (applyPhysics deltaTime s) = isThrusting s.
Proof. step_frame. Qed.

Lemma applyPhysics_distance deltaTime s :
  distance (applyPhysics deltaTime s) = distance s.
Proof. step_frame. Qed.

Lemma applyPhysics_distanceText deltaTime s :
  distanceText (applyPhysics deltaTime s) = distanceText s.
Proof. step_frame. Qed.

Lemma applyPhysics_backgroundSprite deltaTime s :
  backgroundSprite (applyPhysics deltaTime s) = backgroundSprite s.
Proof. step_frame. Qed.

Lemma applyPhysics_backgroundOffset deltaTime s :
  backgroundOffset (applyPhysics deltaTime s) = backgroundOffset s.
Proof. step_frame. Qed.

Lemma applyPhysics_forwardVelocity deltaTime s :
  forwardVelocity (applyPhysics deltaTime s) = forwardVelocity s.
Proof. step_frame. Qed.

Lemma applyPhysics_cameraTargetX deltaTime s :
  cameraTargetX (applyPhysics deltaTime s) = cameraTargetX s.
Proof. step_frame. Qed.

Lemma applyPhysics_worldOffset deltaTime s :
  worldOffset (applyPhysics deltaTime s) = worldOffset s.
Proof. step_frame. Qed.

Lemma applyPhysics_scrollX deltaTime s :
  scrollX (applyPhysics deltaTime s) = scrollX s.
Proof. step_frame. Qed.

Lemma updateForwardVelocity_bird_x deltaTime s :
  Sprite.x (bird (updateForwardVelocity deltaTime s)) = Sprite.x (bird s).
Proof. step_frame. Qed.

Lemma updateForwardVelocity_bird_y deltaTime s :
  Sprite.y (bird (updateForwardVelocity deltaTime s)) = Sprite.y (bird s).
Proof. step_frame. Qed.

Lemma updateForwardVelocity_bird_velocity_y deltaTime s :
  Sprite.velocity_y (bird (updateForwardVelocity deltaTime s)) = Sprite.velocity_y (bird s).
Proof. step_frame. Qed.

Lemma updateForwardVelocity_isThrusting deltaTime s :
  isThrusting (updateForwardVelocity deltaTime s) = isThrusting s.
Proof. step_frame. Qed.

Lemma updateForwardVelocity_distance deltaTime s :
  distance (updateForwardVelocity deltaTime s) = distance s.
Proof. step_frame. Qed.

Lemma updateForwardVelocity_distanceText deltaTime s :
  distanceText (updateForwardVelocity deltaTime s) = distanceText s.
Proof. step_frame. Qed.

Lemma updateForwardVelocity_backgroundSprite deltaTime s :
  backgroundSprite (updateForwardVelocity deltaTime s) = backgroundSprite s.
Proof. step_frame. Qed.

Lemma updateForwardVelocity_backgroundOffset deltaTime s :
  backgroundOffset (updateForwardVelocity deltaTime s) = backgroundOffset s.
Proof. step_frame. Qed.

Lemma updateForwardVelocity_cameraTargetX deltaTime s :
  cameraTargetX (updateForwardVelocity deltaTime s) = cameraTargetX s.
Proof. step_frame. Qed.

Lemma updateForwardVelocity_worldOffset deltaTime s :
  worldOffset (updateForwardVelocity deltaTime s) = worldOffset s.
Proof. step_frame. Qed.

Lemma updateForwardVelocity_gravity_y deltaTime s :
  gravity_y (updateForwardVelocity deltaTime s) = gravity_y s.
Proof. step_frame. Qed.

Lemma updateForwardVelocity_scrollX deltaTime s :
  scrollX (updateForwardVelocity deltaTime s) = scrollX s.
Proof. step_frame. Qed.

Lemma constrainBirdPosition_isThrusting s :
  isThrusting (constrainBirdPosition s) = isThrusting s.
Proof. step_frame. Qed.

Lemma constrainBirdPosition_distance s :
  distance (constrainBirdPosition s) = distance s.
Proof. step_frame. Qed.

Lemma constrainBirdPosition_distanceText s :
  distanceText (constrainBirdPosition s) = distanceText s.
Proof. step_frame. Qed.

Lemma constrainBirdPosition_backgroundSprite s :
  backgroundSprite (constrainBirdPosition s) = backgroundSprite s.
Proof. step_frame. Qed.

Lemma constrainBirdPosition_backgroundOffset s :
  backgroundOffset (constrainBirdPosition s) = backgroundOffset s.
Proof. step_frame. Qed.

Lemma constrainBirdPosition_forwardVelocity s :
  forwardVelocity (constrainBirdPosition s) = forwardVelocity s.
Proof. step_frame. Qed.

Lemma constrainBirdPosition_cameraTargetX s :
  cameraTargetX (constrainBirdPosition s) = cameraTargetX s.
Proof. step_frame. Qed.

Lemma constrainBirdPosition_worldOffset s :
  worldOffset (constrainBirdPosition s) = worldOffset s.
Proof. step_frame. Qed.

Lemma constrainBirdPosition_gravity_y s :
  gravity_y (constrainBirdPosition s) = gravity_y s.
Proof. step_frame. Qed.

Lemma constrainBirdPosition_scrollX s :
  scrollX (constrainBirdPosition s) = scrollX s.
Proof. step_frame. Qed.

Lemma updateCamera_bird deltaTime s :
  bird (updateCamera deltaTime s) = bird s.
Proof. step_frame. Qed.

Lemma updateCamera_isThrusting deltaTime s :
  isThrusting (updateCamera deltaTime s) = isThrusting s.
Proof. step_frame. Qed.

Lemma updateCamera_distance deltaTime s :
  distance (updateCamera deltaTime s) = distance s.
Proof. step_frame. Qed.

Lemma updateCamera_distanceText deltaTime s :
  distanceText (updateCamera deltaTime s) = distanceText s.
Proof. step_frame. Qed.

Lemma updateCamera_backgroundSprite deltaTime s :
  backgroundSprite (updateCamera deltaTime s) = backgroundSprite s.
Proof. step_frame. Qed.

Lemma updateCamera_backgroundOffset deltaTime s :
  backgroundOffset (updateCamera deltaTime s) = backgroundOffset s.
Proof. step_frame. Qed.

Lemma updateCamera_forwardVelocity deltaTime s :
  forwardVelocity (updateCamera deltaTime s) = forwardVelocity s.
Proof. step_frame. Qed.

Lemma updateCamera_worldOffset deltaTime s :
  worldOffset (updateCamera deltaTime s) = worldOffset s.
Proof. step_frame. Qed.

Lemma updateCamera_gravity_y deltaTime s :
  gravity_y (updateCamera deltaTime s) = gravity_y s.
Proof. step_frame. Qed.

Lemma updateWorldPosition_bird deltaTime s :
  bird (updateWorldPosition deltaTime s) = bird s.
Proof. step_frame. Qed.

Lemma updateWorldPosition_isThrusting deltaTime s :
  isThrusting (updateWorldPosition deltaTime s) = isThrusting s.
Proof. step_frame. Qed.

Lemma updateWorldPosition_backgroundSprite deltaTime s :
  backgroundSprite (updateWorldPosition deltaTime s) = backgroundSprite s.
Proof. step_frame. Qed.

Lemma updateWorldPosition_backgroundOffset deltaTime s :
  backgroundOffset (updateWorldPosition deltaTime s) = backgroundOffset s.
Proof. step_frame. Qed.

Lemma updateWorldPosition_forwardVelocity deltaTime s :
  forwardVelocity (updateWorldPosition deltaTime s) = forwardVelocity s.
Proof. step_frame. Qed.

Lemma updateWorldPosition_cameraTargetX deltaTime s :
  cameraTargetX (updateWorldPosition deltaTime s) = cameraTargetX s.
Proof. step_frame. Qed.

Lemma updateWorldPosition_gravity_y deltaTime s :
  gravity_y (updateWorldPosition deltaTime s) = gravity_y s.
Proof. step_frame. Qed.

Lemma updateWorldPosition_scrollX deltaTime s :
  scrollX (updateWorldPosition deltaTime s) = scrollX s.
Proof. step_frame. Qed.

Lemma updateBackgroundScrolling_bird s :
  bird (updateBackgroundScrolling s) = bird s.
Proof. step_frame. Qed.

Lemma updateBackgroundScrolling_isThrusting s :
  isThrusting (updateBackgroundScrolling s) = isThrusting s.
Proof. step_frame. Qed.

Lemma updateBackgroundScrolling_distance s :
  distance (updateBackgroundScrolling s) = distance s.
Proof. step_frame. Qed.

Lemma updateBackgroundScrolling_distanceText s :
  distanceText (updateBackgroundScrolling s) = distanceText s.
Proof. step_frame. Qed.

Lemma updateBackgroundScrolling_backgroundOffset s :
  backgroundOffset (updateBackgroundScrolling s) = backgroundOffset s.
Proof. step_frame. Qed.

Lemma updateBackgroundScrolling_forwardVelocity s :
  forwardVelocity (updateBackgroundScrolling s) = forwardVelocity s.
Proof. step_frame. Qed.

Lemma updateBackgroundScrolling_cameraTargetX s :
  cameraTargetX (updateBackgroundScrolling s) = cameraTargetX s.
Proof. step_frame. Qed.

Lemma updateBackgroundScrolling_worldOffset s :
  worldOffset (updateBackgroundScrolling s) = worldOffset s.
Proof. step_frame. Qed.

Lemma updateBackgroundScrolling_gravity_y s :
  gravity_y (updateBackgroundScrolling s) = gravity_y s.
Proof. step_frame. Qed.

Lemma updateBackgroundScrolling_scrollX s :
  scrollX (updateBackgroundScrolling s) = scrollX s.
Proof. step_frame. Qed.

Lemma set_backgroundOffset_bird v s :
  bird (set_backgroundOffset v s) = bird s.
Proof. step_frame. Qed.

Lemma set_backgroundOffset_isThrusting v s :
  isThrusting (set_backgroundOffset v s) = isThrusting s.
Proof. step_frame. Qed.

Lemma set_backgroundOffset_distance v s :
  distance (set_backgroundOffset v s) = distance s.
Proof. step_frame. Qed.

Lemma set_backgroundOffset_distanceText v s :
  distanceText (set_backgroundOffset v s) = distanceText s.
Proof. step_frame. Qed.

Lemma set_backgroundOffset_backgroundSprite v s :
  backgroundSprite (set_backgroundOffset v s) = backgroundSprite s.
Proof. step_frame. Qed.

Lemma set_backgroundOffset_forwardVelocity v s :
  forwardVelocity (set_backgroundOffset v s) = forwardVelocity s.
Proof. step_frame. Qed.

Lemma set_backgroundOffset_cameraTargetX v s :
  cameraTargetX (set_backgroundOffset v s) = cameraTargetX s.
Proof. step_frame. Qed.

Lemma set_backgroundOffset_worldOffset v s :
  worldOffset (set_backgroundOffset v s) = worldOffset s.
Proof. step_frame. Qed.

Lemma set_backgroundOffset_gravity_y v s :
  gravity_y (set_backgroundOffset v s) = gravity_y s.
Proof. step_frame. Qed.

Lemma set_backgroundOffset_scrollX v s :
  scrollX (set_backgroundOffset v s) = scrollX s.
Proof. step_frame. Qed.

Create Rewrite HintDb scene.
#[local] Hint Rewrite
  applyPhysics_bird_x applyPhysics_bird_y applyPhysics_bird_velocity_x
  applyPhysics_isThrusting applyPhysics_distance applyPhysics_distanceText
  applyPhysics_backgroundSprite applyPhysics_backgroundOffset
  applyPhysics_forwardVelocity applyPhysics_cameraTargetX
  applyPhysics_worldOffset applyPhysics_scrollX updateForwardVelocity_bird_x
  updateForwardVelocity_bird_y updateForwardVelocity_bird_velocity_y
  updateForwardVelocity_isThrusting updateForwardVelocity_distance
  updateForwardVelocity_distanceText updateForwardVelocity_backgroundSprite
  updateForwardVelocity_backgroundOffset updateForwardVelocity_cameraTargetX
  updateForwardVelocity_worldOffset updateForwardVelocity_gravity_y
  updateForwardVelocity_scrollX constrainBirdPosition_isThrusting
  constrainBirdPosition_distance constrainBirdPosition_distanceText
  constrainBirdPosition_backgroundSprite
  constrainBirdPosition_backgroundOffset
  constrainBirdPosition_forwardVelocity constrainBirdPosition_cameraTargetX
  constrainBirdPosition_worldOffset constrainBirdPosition_gravity_y
  constrainBirdPosition_scrollX updateCamera_bird updateCamera_isThrusting
  updateCamera_distance updateCamera_distanceText
  updateCamera_backgroundSprite updateCamera_backgroundOffset
  updateCamera_forwardVelocity updateCamera_worldOffset
  updateCamera_gravity_y updateWorldPosition_bird
  updateWorldPosition_isThrusting updateWorldPosition_backgroundSprite
  updateWorldPosition_backgroundOffset updateWorldPosition_forwardVelocity
  updateWorldPosition_cameraTargetX updateWorldPosition_gravity_y
  updateWorldPosition_scrollX updateBackgroundScrolling_bird
  updateBackgroundScrolling_isThrusting updateBackgroundScrolling_distance
  updateBackgroundScrolling_distanceText
  updateBackgroundScrolling_backgroundOffset
  updateBackgroundScrolling_forwardVelocity
  updateBackgroundScrolling_cameraTargetX
  updateBackgroundScrolling_worldOffset updateBackgroundScrolling_gravity_y
  updateBackgroundScrolling_scrollX set_backgroundOffset_bird
  set_backgroundOffset_isThrusting set_backgroundOffset_distance
  set_backgroundOffset_distanceText set_backgroundOffset_backgroundSprite
  set_backgroundOffset_forwardVelocity set_backgroundOffset_cameraTargetX
  set_backgroundOffset_worldOffset set_backgroundOffset_gravity_y
  set_backgroundOffset_scrollX
  : scene.

(** ** What each step writes *)

Lemma applyPhysics_gravity_y deltaTime s :
  gravity_y (applyPhysics deltaTime s) =
  if isThrusting s then PHYSICS.GRAVITY else PHYSICS.GLIDE_GRAVITY.
Proof. unfold applyPhysics. now destruct (isThrusting s). Qed.

Lemma applyPhysics_velocity_y deltaTime s :
  Sprite.velocity_y (bird (applyPhysics deltaTime s)) =
  if isThrusting s then PHYSICS.THRUST else Sprite.velocity_y (bird s).
Proof. unfold applyPhysics. now destruct (isThrusting s). Qed.

Lemma updateForwardVelocity_forwardVelocity deltaTime s :
  forwardVelocity (updateForwardVelocity deltaTime s) =
  Phaser.Clamp
    (if isThrusting s then
       forwardVelocity s + PHYSICS.THRUST_FORWARD_BOOST * deltaTime
     else if PHYSICS.FALL_THRESHOLD <? Sprite.velocity_y (bird s) then
       forwardVelocity s * PHYSICS.FALL_DECELERATION
     else forwardVelocity s * PHYSICS.GLIDE_FORWARD_MAINTAIN)
    PHYSICS.BASE_FORWARD_SPEED PHYSICS.MAX_FORWARD_SPEED.
Proof.
  unfold updateForwardVelocity.
  destruct (isThrusting s);
    [|destruct (PHYSICS.FALL_THRESHOLD <? Sprite.velocity_y (bird s))];
    reflexivity.
Qed.

Lemma updateForwardVelocity_velocity_x deltaTime s :
  Sprite.velocity_x (bird (updateForwardVelocity deltaTime s)) =
  forwardVelocity (updateForwardVelocity deltaTime s).
Proof.
  unfold updateForwardVelocity.
  destruct (isThrusting s);
    [|destruct (PHYSICS.FALL_THRESHOLD <? Sprite.velocity_y (bird s))];
    reflexivity.
Qed.

Lemma updateCamera_cameraTargetX deltaTime s :
  cameraTargetX (updateCamera deltaTime s) = worldOffset s * 0.2.
Proof. reflexivity. Qed.

Lemma updateCamera_scrollX deltaTime s :
  scrollX (updateCamera deltaTime s) =
  Phaser.Linear (scrollX s) (worldOffset s * 0.2) MOVEMENT.CAMERA_LERP.
Proof. reflexivity. Qed.

Lemma updateWorldPosition_worldOffset deltaTime s :
  worldOffset (updateWorldPosition deltaTime s) =
  worldOffset s + forwardVelocity s * deltaTime * MOVEMENT.WORLD_SCROLL_FACTOR.
Proof. reflexivity. Qed.

Lemma updateWorldPosition_distance deltaTime s :
  distance (updateWorldPosition deltaTime s) =
  Math.floor (worldOffset (updateWorldPosition deltaTime s) / 10).
Proof. reflexivity. Qed.

Lemma updateWorldPosition_distanceText deltaTime s :
  distanceText (updateWorldPosition deltaTime s) =
  distance (updateWorldPosition deltaTime s).
Proof. reflexivity. Qed.

Lemma set_backgroundOffset_backgroundOffset v s :
  backgroundOffset (set_backgroundOffset v s) = v.
Proof. reflexivity. Qed.

#[local] Hint Rewrite
  applyPhysics_gravity_y applyPhysics_velocity_y
  updateCamera_cameraTargetX updateCamera_scrollX
  updateWorldPosition_worldOffset updateWorldPosition_distance
  updateWorldPosition_distanceText set_backgroundOffset_backgroundOffset
  : scene.

(** ** The fields of the scene after a frame *)

Ltac frame_update :=
  intros; unfold update; cbv zeta; autorewrite with scene; try reflexivity.

Lemma update_isThrusting delta s :
  isThrusting (update delta s) = isThrusting s.
Proof. frame_update. Qed.

Lemma update_gravity_y delta s :
  gravity_y (update delta s) =
  if isThrusting s then PHYSICS.GRAVITY else PHYSICS.GLIDE_GRAVITY.
Proof. frame_update. Qed.

Lemma update_forwardVelocity delta s :
  forwardVelocity (update delta s) =
  forwardVelocity
    (updateForwardVelocity (clampedDeltaTime delta)
       (applyPhysics (clampedDeltaTime delta) s)).
Proof. frame_update. Qed.

Lemma update_bird delta s :
  bird (update delta s) =
  bird
    (constrainBirdPosition
       (updateForwardVelocity (clampedDeltaTime delta)
          (applyPhysics (clampedDeltaTime delta) s))).
Proof. frame_update. Qed.

Lemma update_cameraTargetX delta s :
  cameraTargetX (update delta s) = worldOffset s * 0.2.
Proof. frame_update. Qed.

Lemma update_scrollX delta s :
  scrollX (update delta s) =
  Phaser.Linear (scrollX s) (worldOffset s * 0.2) MOVEMENT.CAMERA_LERP.
Proof. frame_update. Qed.

Lemma update_worldOffset delta s :
  worldOffset (update delta s) =
  worldOffset s
  + forwardVelocity (update delta s) * clampedDeltaTime delta
    * MOVEMENT.WORLD_SCROLL_FACTOR.
Proof. rewrite update_forwardVelocity. frame_update. Qed.

Lemma update_distance delta s :
  distance (update delta s) = Math.floor (worldOffset (update delta s) / 10).
Proof. rewrite update_worldOffset, update_forwardVelocity. frame_update. Qed.

Lemma update_backgroundOffset delta s :
  backgroundOffset (update delta s) =
  backgroundOffset s + BACKGROUND.CONSTANT_SCROLL_SPEED * clampedDeltaTime delta.
Proof. frame_update. Qed.

(** * The properties of the motion model *)

(** ** Forward velocity *)

Lemma updateForwardVelocity_rule deltaTime s :
  forwardVelocity (updateForwardVelocity deltaTime s) =
  forward_velocity_rule (isThrusting s) (Sprite.velocity_y (bird s))
    (forwardVelocity s) deltaTime.
Proof.
  rewrite updateForwardVelocity_forwardVelocity. now rewrite Clamp_clamp_to.
Qed.

(** In [update] the rule reads the vertical velocity the frame started with:
    the thrust written by [applyPhysics] is read by no branch. *)
Lemma update_forwardVelocity_rule delta s :
  forwardVelocity (update delta s) =
  forward_velocity_rule (isThrusting s) (Sprite.velocity_y (bird s))
    (forwardVelocity s) (clampedDeltaTime delta).
Proof.
  rewrite update_forwardVelocity, updateForwardVelocity_rule.
  autorewrite with scene.
  now destruct (isThrusting s).
Qed.

(** C1.  The forward-velocity update of a frame follows the rule of the
    specification: while thrusting the forward velocity grows by
    [THRUST_FORWARD_BOOST * delta = 20 * delta]; otherwise it is multiplied
    by [FALL_DECELERATION = 0.95] when the bird's vertical velocity exceeds
    [FALL_THRESHOLD = 300], and by [GLIDE_FORWARD_MAINTAIN = 0.99] when it
    does not; the result is clamped to
    [[BASE_FORWARD_SPEED, MAX_FORWARD_SPEED] = [70, 1700]] and becomes the
    bird's horizontal velocity.  The same holds of the step inside [update],
    whose [delta] is the clamped time step of the frame. *)
Theorem forward_velocity_update (deltaTime delta : float) (s : GameScene) :
  forwardVelocity (updateForwardVelocity deltaTime s) =
    forward_velocity_rule (isThrusting s) (Sprite.velocity_y (bird s))
      (forwardVelocity s) deltaTime /\
  Sprite.velocity_x (bird (updateForwardVelocity deltaTime s)) =
    forwardVelocity (updateForwardVelocity deltaTime s) /\
  forwardVelocity (update delta s) =
    forward_velocity_rule (isThrusting s) (Sprite.velocity_y (bird s))
      (forwardVelocity s) (clampedDeltaTime delta).
Proof.
  split; [apply updateForwardVelocity_rule|].
  split; [apply updateForwardVelocity_velocity_x|].
  apply update_forwardVelocity_rule.
Qed.

(** ** Thrust and gravity *)


(** ** The camera *)

(** C8.  The camera step of a frame sets [cameraTargetX] to a fifth of the
    world offset and moves the camera's scroll a tenth ([CAMERA_LERP]) of
    the way from where it is to that target.  In [update] the step runs
    before the world offset grows: the target is taken from the world
    offset the frame started with.  The scroll does not jump to the target:
    after the second frame of a fresh scene the two differ, and the target
    is not a fifth of the world offset the frame ends with. *)
Theorem camera_update (deltaTime delta : float) (s : GameScene) :
  cameraTargetX (updateCamera deltaTime s) = worldOffset s * 0.2 /\
  scrollX (updateCamera deltaTime s) =
    ease (scrollX s) (cameraTargetX (updateCamera deltaTime s)) /\
  cameraTargetX (update delta s) = worldOffset s * 0.2 /\
  scrollX (update delta s) = ease (scrollX s) (worldOffset s * 0.2) /\
  (let s2 := update 16 (update 16 create) in
   (scrollX s2 =? cameraTargetX s2) = false /\
   (cameraTargetX s2 =? worldOffset s2 * 0.2) = false).
Proof.
  assert (lerp : forall p0 p1,
    Phaser.Linear p0 p1 MOVEMENT.CAMERA_LERP = ease p0 p1).
  { intros p0 p1. unfold Phaser.Linear, ease, MOVEMENT.CAMERA_LERP.
    now rewrite add_comm, (mul_comm 0.1). }
  split; [reflexivity|].
  split; [rewrite updateCamera_scrollX; apply lerp|].
  split; [apply update_cameraTargetX|].
  split; [rewrite update_scrollX; apply lerp|].
  now vm_compute.
Qed.

(** ** The world offset and the distance *)

(** C9.  The world step of a frame adds
    [forwardVelocity * delta * WORLD_SCROLL_FACTOR] to the world offset,
    where in [update] the forward velocity is the one the frame has just
    computed, and the distance shown is the floor of a tenth of the new
    world offset: a world offset of 500 is shown as 50. *)
Theorem world_distance_update (deltaTime delta : float) (s : GameScene) :
  worldOffset (updateWorldPosition deltaTime s) =
    worldOffset s + forwardVelocity s * deltaTime * 1.0 /\
  distance (updateWorldPosition deltaTime s) =
    Math.floor (worldOffset (updateWorldPosition deltaTime s) / 10) /\
  distanceText (updateWorldPosition deltaTime s) =
    distance (updateWorldPosition deltaTime s) /\
  worldOffset (update delta s) =
    worldOffset s
    + forwardVelocity
        (updateForwardVelocity (clampedDeltaTime delta)
           (applyPhysics (clampedDeltaTime delta) s))
      * clampedDeltaTime delta * 1.0 /\
  distance (update delta s) = Math.floor (worldOffset (update delta s) / 10) /\
  (worldOffset (updateWorldPosition deltaTime s) = 500 ->
   distance (updateWorldPosition deltaTime s) = 50) /\
  distance (updateWorldPosition 0 (set_worldOffset 500 create)) = 50.
Proof.
  split; [reflexivity|]. split; [reflexivity|]. split; [reflexivity|].
  split; [now rewrite update_worldOffset, update_forwardVelocity|].
  split; [apply update_distance|].
  split; [|reflexivity].
  rewrite updateWorldPosition_distance. now intros ->.
Qed.

(** ** The thrust flag *)

(** C10.  [update] reads [isThrusting] and never writes it, and neither does
    any of its steps nor the physics pass: the flag changes only in the
    pointer-down handler, which sets it, and in the pointer-up handler,
    which clears it; the handlers write nothing else. *)
Theorem isThrusting_written_by_pointer_only :
  (forall delta s, isThrusting (update delta s) = isThrusting s) /\
  (forall s, pointerdown s = set_isThrusting true s) /\
  (forall s, pointerup s = set_isThrusting false s) /\
  (forall s, isThrusting (pointerdown s) = true) /\
  (forall s, isThrusting (pointerup s) = false) /\
  (forall e s,
     isThrusting (step e s) <> isThrusting s ->
     (e = ev_pointerdown /\ isThrusting s = false) \/
     (e = ev_pointerup /\ isThrusting s = true)).
Proof.
  split; [apply update_isThrusting|].
  do 4 (split; [reflexivity|]).
  intros [ | |delta|integrate] s; cbn [step].
  - destruct (isThrusting s) eqn:E; cbn; rewrite ?E; intros H; auto; congruence.
  - destruct (isThrusting s) eqn:E; cbn; rewrite ?E; intros H; auto; congruence.
  - rewrite update_isThrusting. congruence.
  - cbn. congruence.
Qed.

(** ** The bounds of the position *)

(** The two positions after the bound enforcement are the clamps of the
    positions before. *)
Lemma constrainBirdPosition_x s :
  Sprite.x (bird (constrainBirdPosition s)) =
  clamp_to MOVEMENT.MIN_X MOVEMENT.MAX_X (Sprite.x (bird s)).
Proof.
  unfold constrainBirdPosition, clamp_to.
  destruct (Sprite.x (bird s) <? MOVEMENT.MIN_X);
    [|destruct (MOVEMENT.MAX_X <? Sprite.x (bird s))];
    cbn [Sprite.y Sprite.setX Sprite.setVelocityX];
    (destruct (Sprite.y (bird s) <? 0);
      [|destruct (GAME.HEIGHT <? Sprite.y (bird s))]); reflexivity.
Qed.

Lemma constrainBirdPosition_y s :
  Sprite.y (bird (constrainBirdPosition s)) =
  clamp_to 0 GAME.HEIGHT (Sprite.y (bird s)).
Proof.
  unfold constrainBirdPosition, clamp_to.
  destruct (Sprite.x (bird s) <? MOVEMENT.MIN_X);
    [|destruct (MOVEMENT.MAX_X <? Sprite.x (bird s))];
    cbn [Sprite.y Sprite.setX Sprite.setVelocityX];
    (destruct (Sprite.y (bird s) <? 0);
      [|destruct (GAME.HEIGHT <? Sprite.y (bird s))]); reflexivity.
Qed.

(** C4.  After the bound enforcement of a frame the bird is inside the
    playfield: [MIN_X = 200 <= x <= MAX_X = 800] and
    [0 <= y <= HEIGHT = 1080], whenever the position it starts from is a
    number.  The steps of [update] that follow do not move the bird, so the
    bounds hold when the frame ends. *)
Theorem position_within_bounds (delta : float) (s : GameScene) :
  is_nan (Sprite.x (bird s)) = false ->
  is_nan (Sprite.y (bird s)) = false ->
  within 200 800 (Sprite.x (bird (constrainBirdPosition s))) = true /\
  within 0 1080 (Sprite.y (bird (constrainBirdPosition s))) = true /\
  within 200 800 (Sprite.x (bird (update delta s))) = true /\
  within 0 1080 (Sprite.y (bird (update delta s))) = true.
Proof.
  intros Nx Ny.
  rewrite update_bird, !constrainBirdPosition_x, !constrainBirdPosition_y.
  autorewrite with scene.
  repeat split; now apply clamp_to_within.
Qed.

Lemma position_within_bounds_witness :
  let s := set_bird (Sprite.mk 190 2000 70 650) create in
  within 200 800 (Sprite.x (bird (constrainBirdPosition s))) = true /\
  within 0 1080 (Sprite.y (bird (constrainBirdPosition s))) = true /\
  within 200 800 (Sprite.x (bird (update 16 s))) = true /\
  within 0 1080 (Sprite.y (bird (update 16 s))) = true.
Proof.
  exact (position_within_bounds 16
           (set_bird (Sprite.mk 190 2000 70 650) create) eq_refl eq_refl).
Defined.

(** [Math.max (0, v)] is not below zero and [Math.min (0, v)] not above. *)
Lemma Math_max_0_nonneg v : is_nan v = false -> (0 <=? Math.max 0 v) = true.
Proof.
  intros Nv. unfold Math.max. rewrite Nv. cbn [is_nan orb].
  change (is_nan 0) with false. cbn [orb].
  destruct (v <? 0) eqn:E1; [reflexivity|].
  destruct (0 <? v) eqn:E2; [now apply ltb_leb|].
  reflexivity.
Qed.

Lemma Math_min_0_nonpos v : is_nan v = false -> (Math.min 0 v <=? 0) = true.
Proof.
  intros Nv. unfold Math.min. rewrite Nv.
  change (is_nan 0) with false. cbn [orb].
  destruct (0 <? v) eqn:E1; [reflexivity|].
  destruct (v <? 0) eqn:E2; [now apply ltb_leb|].
  change (Math.is_neg_zero 0) with false. cbv iota.
  now apply not_ltb_leb.
Qed.

(** C5.  The bound enforcement clamps each coordinate and, with it, the
    velocity along it: left of [MIN_X] the bird is put at [MIN_X] and its
    horizontal velocity becomes [Math.max (0, v)]; right of [MAX_X] it is
    put at [MAX_X] with [Math.min (0, v)]; above [0] it is put at [0] with
    vertical velocity [Math.max (0, v)]; below [HEIGHT] it is put at
    [HEIGHT] with [Math.min (0, v)].  A coordinate inside its bounds keeps
    its position and velocity, and when both are inside the step changes
    nothing at all.  The step writes the bird only.  The clamped velocity
    does not point into the wall. *)
Theorem bound_enforcement (s : GameScene) :
  let b := bird s in
  let b' := bird (constrainBirdPosition s) in
  ((Sprite.x b <? 200) = true ->
   Sprite.x b' = 200 /\
   Sprite.velocity_x b' = Math.max 0 (Sprite.velocity_x b)) /\
  ((800 <? Sprite.x b) = true ->
   Sprite.x b' = 800 /\
   Sprite.velocity_x b' = Math.min 0 (Sprite.velocity_x b)) /\
  ((Sprite.y b <? 0) = true ->
   Sprite.y b' = 0 /\
   Sprite.velocity_y b' = Math.max 0 (Sprite.velocity_y b)) /\
  ((1080 <? Sprite.y b) = true ->
   Sprite.y b' = 1080 /\
   Sprite.velocity_y b' = Math.min 0 (Sprite.velocity_y b)) /\
  ((Sprite.x b <? 200) = false -> (800 <? Sprite.x b) = false ->
   Sprite.x b' = Sprite.x b /\ Sprite.velocity_x b' = Sprite.velocity_x b) /\
  ((Sprite.y b <? 0) = false -> (1080 <? Sprite.y b) = false ->
   Sprite.y b' = Sprite.y b /\ Sprite.velocity_y b' = Sprite.velocity_y b) /\
  ((Sprite.x b <? 200) = false -> (800 <? Sprite.x b) = false ->
   (Sprite.y b <? 0) = false -> (1080 <? Sprite.y b) = false ->
   constrainBirdPosition s = s) /\
  constrainBirdPosition s = set_bird b' s /\
  (is_nan (Sprite.velocity_x b) = false ->
   ((Sprite.x b <? 200) = true -> (0 <=? Sprite.velocity_x b') = true) /\
   ((800 <? Sprite.x b) = true -> (Sprite.velocity_x b' <=? 0) = true)) /\
  (is_nan (Sprite.velocity_y b) = false ->
   ((Sprite.y b <? 0) = true -> (0 <=? Sprite.velocity_y b') = true) /\
   ((1080 <? Sprite.y b) = true -> (Sprite.velocity_y b' <=? 0) = true)).
Proof.
  destruct s as [[x y vx vy] th d dt bs bo fv ct wo g sx].
  cbv zeta. unfold constrainBirdPosition.
  cbn [bird Sprite.x Sprite.y Sprite.velocity_x Sprite.velocity_y].
  change MOVEMENT.MIN_X with 200. change MOVEMENT.MAX_X with 800.
  change GAME.HEIGHT with 1080.
  assert (X : (x <? 200) = true -> (800 <? x) = false).
  { intros H. apply ltb_asym, ltb_leb_trans with 200; trivial. }
  assert (Y : (y <? 0) = true -> (1080 <? y) = false).
  { intros H. apply ltb_asym, ltb_leb_trans with 0; trivial. }
  destruct (x <? 200) eqn:X1; [rewrite (X eq_refl)|destruct (800 <? x) eqn:X2];
    cbn [Sprite.x Sprite.y Sprite.velocity_x Sprite.velocity_y
         Sprite.setX Sprite.setVelocityX];
    (destruct (y <? 0) eqn:Y1; [rewrite (Y eq_refl)|destruct (1080 <? y) eqn:Y2]);
    cbn;
    repeat match goal with
    | |- _ /\ _ => split
    | |- _ -> _ => intro
    end;
    try reflexivity; try discriminate;
    solve [now apply Math_max_0_nonneg | now apply Math_min_0_nonpos].
Qed.

(** ** Runs *)

Lemma run_app evs more s : run (evs ++ more) s = run more (run evs s).
Proof. apply fold_left_app. Qed.

(** A property kept by every admissible event is kept by a run of them. *)
Lemma run_invariant (ok : event -> bool) (P : GameScene -> Prop) :
  (forall e s, ok e = true -> P s -> P (step e s)) ->
  forall evs s, forallb ok evs = true -> P s -> P (run evs s).
Proof.
  intros Hstep evs. induction evs as [|e evs IH]; intros s Hok Hs; trivial.
  cbn in Hok. apply andb_prop in Hok. destruct Hok as [He Hevs].
  cbn. apply IH; trivial. now apply Hstep.
Qed.

(** The time step of a frame is a number when the host's delta is one, and
    is not negative when the delta is not. *)
Lemma clampedDeltaTime_not_nan delta :
  is_nan delta = false -> is_nan (clampedDeltaTime delta) = false.
Proof.
  intros H. unfold clampedDeltaTime. apply Math_min_not_nan; [|reflexivity].
  apply div_not_nan; trivial. exact I.
Qed.

Lemma clampedDeltaTime_nonneg delta :
  (0 <=? delta) = true -> (0 <=? clampedDeltaTime delta) = true.
Proof.
  intros H. unfold clampedDeltaTime.
  assert (H1 : (0 <=? delta / 1000) = true)
    by (apply div_nonneg; trivial; exact I).
  destruct (Math_min_either (delta / 1000) (1 / 60)) as [-> | ->]; trivial.
  now apply leb_not_nan in H1.
Qed.

(** ** The bounds of the forward velocity *)

Lemma speed_finite v :
  within 70 1700 v = true -> SFfinite (Prim2SF v) /\ SFnonneg (Prim2SF v).
Proof. apply within_finite; exact I. Qed.

Lemma forward_velocity_rule_within thrusting velocityY forwardVelocity delta :
  within 70 1700 forwardVelocity = true -> is_nan delta = false ->
  within 70 1700
    (forward_velocity_rule thrusting velocityY forwardVelocity delta) = true.
Proof.
  intros Hv Hd. destruct (speed_finite _ Hv) as [Hf _].
  unfold forward_velocity_rule. apply clamp_to_within; [|reflexivity].
  destruct thrusting; [|destruct (300 <? velocityY)].
  - apply add_not_nan; trivial. apply mul_not_nan_l; trivial. exact I.
  - apply mul_not_nan_l; trivial.
  - apply mul_not_nan_l; trivial.
Qed.

Lemma update_forwardVelocity_within delta s :
  is_nan delta = false ->
  within 70 1700 (forwardVelocity s) = true ->
  within 70 1700 (forwardVelocity (update delta s)) = true.
Proof.
  intros Hd Hv. rewrite update_forwardVelocity_rule.
  apply forward_velocity_rule_within; trivial.
  now apply clampedDeltaTime_not_nan.
Qed.

Lemma step_forwardVelocity e s :
  timed e = true ->
  within 70 1700 (forwardVelocity s) = true ->
  within 70 1700 (forwardVelocity (step e s)) = true.
Proof.
  destruct e as [ | |delta|integrate]; cbn [step timed]; trivial.
  intros Hd Hv. apply negb_true_iff in Hd.
  now apply update_forwardVelocity_within.
Qed.

(** C3.  From the initial forward velocity, [BASE_FORWARD_SPEED], the forward
    velocity stays within [[BASE_FORWARD_SPEED, MAX_FORWARD_SPEED] =
    [70, 1700]]: after the forward-velocity update of every frame, and so in
    every state the scene reaches, whatever the pointer and the physics pass
    do between the frames.  The elapsed time of a frame is a number. *)
Theorem forward_velocity_bounded (evs : list event) (delta : float) :
  forallb timed evs = true ->
  is_nan delta = false ->
  forwardVelocity create = 70 /\
  within 70 1700 (forwardVelocity (run evs create)) = true /\
  within 70 1700
    (forwardVelocity
       (updateForwardVelocity (clampedDeltaTime delta)
          (applyPhysics (clampedDeltaTime delta) (run evs create)))) = true.
Proof.
  intros Hevs Hd. split; [reflexivity|].
  assert (H : within 70 1700 (forwardVelocity (run evs create)) = true).
  { apply (run_invariant timed
             (fun s => within 70 1700 (forwardVelocity s) = true));
      trivial. apply step_forwardVelocity. }
  split; trivial.
  rewrite updateForwardVelocity_rule. autorewrite with scene.
  apply forward_velocity_rule_within; trivial.
  now apply clampedDeltaTime_not_nan.
Qed.

Lemma forward_velocity_bounded_witness :
  let evs := [ev_pointerdown; ev_update 16; ev_pointerup; ev_update 16] in
  forwardVelocity create = 70 /\
  within 70 1700 (forwardVelocity (run evs create)) = true /\
  within 70 1700
    (forwardVelocity
       (updateForwardVelocity (clampedDeltaTime 16)
          (applyPhysics (clampedDeltaTime 16) (run evs create)))) = true.
Proof.
  exact (forward_velocity_bounded
           [ev_pointerdown; ev_update 16; ev_pointerup; ev_update 16] 16
           eq_refl eq_refl).
Defined.

(** ** The two offsets *)

Lemma cruising_intro s :
  within 70 1700 (forwardVelocity s) = true ->
  (0 <=? worldOffset s) = true -> (0 <=? backgroundOffset s) = true ->
  cruising s = true.
Proof. unfold cruising. now intros -> -> ->. Qed.

Lemma cruising_elim s :
  cruising s = true ->
  within 70 1700 (forwardVelocity s) = true /\
  (0 <=? worldOffset s) = true /\ (0 <=? backgroundOffset s) = true.
Proof.
  unfold cruising. intros H.
  apply andb_prop in H. destruct H as [H H3].
  apply andb_prop in H. now destruct H as [H1 H2].
Qed.

(** What a frame adds to the world offset is not negative. *)
Lemma world_increment_nonneg v dt :
  within 70 1700 v = true -> (0 <=? dt) = true ->
  (0 <=? v * dt * MOVEMENT.WORLD_SCROLL_FACTOR) = true.
Proof.
  intros Hv Hdt. destruct (speed_finite v Hv) as [Hf Hn].
  apply mul_nonneg; [|reflexivity|right; exact I].
  apply mul_nonneg; auto. now apply nonneg_SF.
Qed.

Lemma background_increment_nonneg dt :
  (0 <=? dt) = true -> (0 <=? BACKGROUND.CONSTANT_SCROLL_SPEED * dt) = true.
Proof.
  intros Hdt. apply mul_nonneg; trivial. left. exact I.
Qed.

Lemma update_cruising delta s :
  (0 <=? delta) = true -> cruising s = true ->
  cruising (update delta s) = true /\
  (worldOffset s <=? worldOffset (update delta s)) = true /\
  (backgroundOffset s <=? backgroundOffset (update delta s)) = true.
Proof.
  intros He Hs. destruct (cruising_elim s Hs) as (Hv & Hw & Hb).
  assert (Hdt : (0 <=? clampedDeltaTime delta) = true)
    by now apply clampedDeltaTime_nonneg.
  assert (Hv' : within 70 1700 (forwardVelocity (update delta s)) = true).
  { apply update_forwardVelocity_within; trivial.
    now apply leb_not_nan in He. }
  pose proof (world_increment_nonneg _ _ Hv' Hdt) as Hi.
  pose proof (background_increment_nonneg _ Hdt) as Hj.
  split; [|split].
  - apply cruising_intro; trivial.
    + rewrite update_worldOffset. now apply add_nonneg.
    + rewrite update_backgroundOffset. now apply add_nonneg.
  - rewrite update_worldOffset. now apply add_nonneg_le.
  - rewrite update_backgroundOffset. now apply add_nonneg_le.
Qed.

Lemma step_cruising e s :
  forward e = true -> cruising s = true ->
  cruising (step e s) = true /\
  (worldOffset s <=? worldOffset (step e s)) = true /\
  (backgroundOffset s <=? backgroundOffset (step e s)) = true.
Proof.
  intros He Hs. destruct (cruising_elim s Hs) as (Hv & Hw & Hb).
  destruct (leb_not_nan _ _ Hw) as [_ Nw].
  destruct (leb_not_nan _ _ Hb) as [_ Nb].
  destruct e as [ | |delta|integrate]; cbn [step forward] in He |- *;
    try (split; [exact Hs|split; now apply leb_refl]).
  now apply update_cruising.
Qed.

Lemma run_cruising evs :
  forall s, forallb forward evs = true -> cruising s = true ->
  cruising (run evs s) = true /\
  (worldOffset s <=? worldOffset (run evs s)) = true /\
  (backgroundOffset s <=? backgroundOffset (run evs s)) = true.
Proof.
  induction evs as [|e evs IH]; intros s Hok Hs.
  - destruct (cruising_elim s Hs) as (_ & Hw & Hb).
    split; trivial. cbn.
    split; apply leb_refl; eapply leb_not_nan; eassumption.
  - cbn in Hok. apply andb_prop in Hok. destruct Hok as [He Hevs].
    destruct (step_cruising e s He Hs) as (Hs' & Hw & Hb).
    destruct (IH (step e s) Hevs Hs') as (Hs'' & Hw' & Hb').
    cbn. split; trivial. split; eapply leb_trans; eassumption.
Qed.

(** The offsets after each kind of event. *)
Lemma step_worldOffset e s :
  worldOffset (step e s) =
  match e with
  | ev_update delta =>
      worldOffset s
      + forwardVelocity (step e s) * clampedDeltaTime delta
        * MOVEMENT.WORLD_SCROLL_FACTOR
  | _ => worldOffset s
  end.
Proof.
  destruct e as [ | |delta|integrate]; cbn [step]; try reflexivity.
  apply update_worldOffset.
Qed.

Lemma step_backgroundOffset e s :
  backgroundOffset (step e s) =
  match e with
  | ev_update delta =>
      backgroundOffset s
      + BACKGROUND.CONSTANT_SCROLL_SPEED * clampedDeltaTime delta
  | _ => backgroundOffset s
  end.
Proof.
  destruct e as [ | |delta|integrate]; cbn [step]; try reflexivity.
  apply update_backgroundOffset.
Qed.

(** C6.  Along every run of a fresh scene whose frames have a delta that is
    not negative, the world offset and the background offset never
    decrease: the offsets of a state are not above those of any state the
    run reaches later.  A frame adds
    [forwardVelocity * delta * WORLD_SCROLL_FACTOR] to the world offset,
    with a forward velocity and a time step that are not negative, and
    [CONSTANT_SCROLL_SPEED * delta = 130 * delta] to the background offset;
    the pointer events and the physics pass leave both as they are. *)
Theorem offsets_never_decrease (evs more : list event) (e : event) :
  forallb forward (evs ++ more) = true ->
  forward e = true ->
  let s := run evs create in
  (worldOffset s <=? worldOffset (run more s)) = true /\
  (backgroundOffset s <=? backgroundOffset (run more s)) = true /\
  worldOffset (step e s) =
    match e with
    | ev_update delta =>
        worldOffset s + forwardVelocity (step e s) * clampedDeltaTime delta * 1.0
    | _ => worldOffset s
    end /\
  backgroundOffset (step e s) =
    match e with
    | ev_update delta => backgroundOffset s + 130 * clampedDeltaTime delta
    | _ => backgroundOffset s
    end /\
  (0 <=? forwardVelocity (step e s)) = true /\
  match e with
  | ev_update delta => (0 <=? clampedDeltaTime delta) = true
  | _ => True
  end.
Proof.
  intros Hok He s. rewrite forallb_app in Hok.
  apply andb_prop in Hok. destruct Hok as [Hevs Hmore].
  assert (Hs : cruising s = true).
  { apply (run_cruising evs create); trivial. }
  destruct (run_cruising more s Hmore Hs) as (_ & Hw & Hb).
  split; trivial. split; trivial.
  split; [apply step_worldOffset|]. split; [apply step_backgroundOffset|].
  split.
  - destruct (step_cruising e s He Hs) as (Hs' & _ & _).
    destruct (cruising_elim _ Hs') as (Hv & _ & _).
    apply nonneg_SF. now apply speed_finite.
  - destruct e as [ | |delta|integrate]; trivial.
    now apply clampedDeltaTime_nonneg.
Qed.

Lemma offsets_never_decrease_witness :
  let s := run [ev_update 16; ev_pointerdown] create in
  (worldOffset s <=? worldOffset (run [ev_update 20; ev_pointerup; ev_update 0] s)) = true /\
  (backgroundOffset s <=? backgroundOffset (run [ev_update 20; ev_pointerup; ev_update 0] s)) = true /\
  worldOffset (step (ev_update 16) s) =
    worldOffset s + forwardVelocity (step (ev_update 16) s) * clampedDeltaTime 16 * 1.0 /\
  backgroundOffset (step (ev_update 16) s) =
    backgroundOffset s + 130 * clampedDeltaTime 16 /\
  (0 <=? forwardVelocity (step (ev_update 16) s)) = true /\
  (0 <=? clampedDeltaTime 16) = true.
Proof.
  exact (offsets_never_decrease
           [ev_update 16; ev_pointerdown]
           [ev_update 20; ev_pointerup; ev_update 0]
           (ev_update 16) eq_refl eq_refl).
Defined.

(** ** The background offset *)

Lemma run_backgroundOffset evs :
  forall s,
  backgroundOffset (run evs s) = scrolled (deltas evs) (backgroundOffset s).
Proof.
  induction evs as [|e evs IH]; intros s; [reflexivity|].
  change (run (e :: evs) s) with (run evs (step e s)).
  rewrite IH, step_backgroundOffset.
  now destruct e.
Qed.

Lemma deltas_app evs more : deltas (evs ++ more) = deltas evs ++ deltas more.
Proof.
  induction evs as [|e evs IH]; [reflexivity|].
  destruct e; cbn; now rewrite IH.
Qed.

Lemma deltas_play inputs : deltas (play inputs) = map snd inputs.
Proof.
  induction inputs as [|[thrust delta] inputs IH]; [reflexivity|].
  unfold play in *. cbn [flat_map]. rewrite deltas_app, IH.
  now destruct thrust.
Qed.

Lemma firstn_map_snd {A B} n (l : list (A * B)) :
  map snd (firstn n l) = firstn n (map snd l).
Proof. symmetry. apply firstn_map. Qed.

(** C7.  The background offset does not depend on the play: two runs from
    the same scene whose frames have the same deltas, with the pointer held
    or released at will in each, have the same background offset after
    every frame, namely the offset advanced by
    [CONSTANT_SCROLL_SPEED * delta] for each frame so far.  The same holds of
    any two runs of events with the same deltas, from scenes that agree on
    the background offset only. *)
Theorem background_independent_of_play
    (inputs1 inputs2 : list (bool * float)) (s : GameScene) (n : nat) :
  map snd inputs1 = map snd inputs2 ->
  backgroundOffset (run (play (firstn n inputs1)) s) =
    backgroundOffset (run (play (firstn n inputs2)) s) /\
  backgroundOffset (run (play (firstn n inputs1)) s) =
    scrolled (firstn n (map snd inputs1)) (backgroundOffset s) /\
  (forall evs1 evs2 s1 s2,
     deltas evs1 = deltas evs2 ->
     backgroundOffset s1 = backgroundOffset s2 ->
     backgroundOffset (run evs1 s1) = backgroundOffset (run evs2 s2)) /\
  (forall delta s,
     backgroundOffset (update delta s) =
     backgroundOffset s + 130 * clampedDeltaTime delta).
Proof.
  intros H.
  rewrite !run_backgroundOffset, !deltas_play, !firstn_map_snd, H.
  split; [reflexivity|]. split; [reflexivity|]. split.
  - intros evs1 evs2 s1 s2 Hd Hb.
    now rewrite !run_backgroundOffset, Hd, Hb.
  - apply update_backgroundOffset.
Qed.

Lemma background_independent_of_play_witness :
  let held := [(true, 16); (true, 40); (true, 16)] in
  let released := [(false, 16); (false, 40); (false, 16)] in
  (backgroundOffset (run (play (firstn 2 held)) create) =
     backgroundOffset (run (play (firstn 2 released)) create) /\
   backgroundOffset (run (play (firstn 2 held)) create) =
     scrolled (firstn 2 (map snd held)) (backgroundOffset create) /\
   (forall evs1 evs2 s1 s2,
      deltas evs1 = deltas evs2 ->
      backgroundOffset s1 = backgroundOffset s2 ->
      backgroundOffset (run evs1 s1) = backgroundOffset (run evs2 s2)) /\
   (forall delta s,
      backgroundOffset (update delta s) =
      backgroundOffset s + 130 * clampedDeltaTime delta)) /\
  (forwardVelocity (run (play (firstn 2 held)) create)
   =? forwardVelocity (run (play (firstn 2 released)) create)) = false.
Proof.
  split; [|reflexivity].
  exact (background_independent_of_play
           [(true, 16); (true, 40); (true, 16)]
           [(false, 16); (false, 40); (false, 16)] create 2 eq_refl).
Defined.

(** * The model at work *)

(** [Math.floor], [Math.min] and [Math.max] on the values that tell them
    apart from their neighbours: fractions on both sides of zero, the two
    zeros, integers, the largest fraction of the format, infinities, NaN. *)
Lemma Math_examples :
  Math.floor 50.7 = 50 /\ Math.floor (-0.5) = -1 /\ Math.floor 0.5 = 0 /\
  Math.floor (-0) = -0 /\ Math.floor (-3) = -3 /\ Math.floor (-3.2) = -4 /\
  Math.floor 4503599627370495.5 = 4503599627370495 /\
  Math.floor (-4503599627370495.5) = -4503599627370496 /\
  Math.floor 1e300 = 1e300 /\ Math.floor neg_infinity = neg_infinity /\
  Math.floor nan = nan /\
  Math.min 0 (-0) = -0 /\ Math.min (-0) 0 = -0 /\
  Math.max 0 (-0) = 0 /\ Math.max (-0) 0 = 0 /\
  Math.max nan 1 = nan /\ Math.min 1 nan = nan /\
  Math.min 3 2 = 2 /\ Math.max 3 2 = 3 /\ Math.min 3 infinity = 3 /\
  Phaser.Clamp 69.3 70 1700 = 70 /\ Phaser.Clamp 1700.5 70 1700 = 1700 /\
  Phaser.Clamp 70.32 70 1700 = 70.32 /\
  clampedDeltaTime 16 = 0.016 /\ clampedDeltaTime 1000 = 1 / 60.
Proof. repeat split; reflexivity. Qed.

(** The scenarios of the specification, run on the model. *)
Lemma scenario_thrust_frame :
  let s := update 16 (pointerdown create) in
  Sprite.velocity_y (bird s) = -500 /\ forwardVelocity s = 70.32 /\
  gravity_y s = 800.
Proof. repeat split; reflexivity. Qed.

Lemma scenario_falling_badly :
  let s :=
    set_forwardVelocity 100 (set_bird (Sprite.mk 200 540 100 350) create) in
  forwardVelocity (updateForwardVelocity 0.1 s) = 95.
Proof. reflexivity. Qed.

Lemma scenario_gliding :
  let s :=
    set_forwardVelocity 100 (set_bird (Sprite.mk 200 540 100 50) create) in
  forwardVelocity (updateForwardVelocity 0.1 s) = 99.
Proof. reflexivity. Qed.

Lemma scenario_left_wall :
  let s := constrainBirdPosition (set_bird (Sprite.mk 190 540 70 0) create) in
  Sprite.x (bird s) = 200 /\ Sprite.velocity_x (bird s) = 70.
Proof. repeat split; reflexivity. Qed.

Lemma scenario_distance :
  distance (updateWorldPosition 0 (set_worldOffset 500 create)) = 50.
Proof. reflexivity. Qed.

(** * More of the scene *)

(** ** The time step *)

Lemma Math_min_le_r a b :
  is_nan a = false -> is_nan b = false -> (Math.min a b <=? b) = true.
Proof.
  intros Ha Hb. unfold Math.min. rewrite Ha, Hb. cbn [orb].
  destruct (a <? b) eqn:E1; [now apply ltb_leb|].
  destruct (b <? a) eqn:E2; [now apply leb_refl|].
  destruct (Math.is_neg_zero a); [|now apply leb_refl].
  rewrite leb_cmp. now rewrite (not_ltb_cmp_Eq a b).
Qed.

Lemma Math_min_l a b : (a <? b) = true -> Math.min a b = a.
Proof.
  intros H. destruct (ltb_not_nan _ _ H) as [Ha Hb].
  unfold Math.min. now rewrite Ha, Hb, H.
Qed.

Lemma Math_min_r a b :
  (b <=? a) = true -> is_zero b = false -> Math.min a b = b.
Proof.
  intros H Hz. destruct (leb_not_nan _ _ H) as [Hb Ha].
  unfold Math.min, Math.is_neg_zero. rewrite Ha, Hb. cbn [orb].
  rewrite (leb_not_ltb _ _ H).
  destruct (b <? a) eqn:E; trivial.
  assert (C : cmp b a = Some Eq) by (apply not_ltb_cmp_Eq; trivial; now apply leb_not_ltb).
  now rewrite (is_zero_cmp_Eq _ _ C), Hz.
Qed.

(** X1.  The time step of a frame is the elapsed time in seconds, capped at a
    sixtieth of a second: it never exceeds [1 / 60], it is [delta / 1000]
    below the cap and [1 / 60] from the cap on, and it is not negative when
    the elapsed time is not. *)
Theorem time_step_capped (delta : float) :
  is_nan delta = false ->
  (clampedDeltaTime delta <=? 1 / 60) = true /\
  ((delta / 1000 <? 1 / 60) = true -> clampedDeltaTime delta = delta / 1000) /\
  ((1 / 60 <=? delta / 1000) = true -> clampedDeltaTime delta = 1 / 60) /\
  ((0 <=? delta) = true -> (0 <=? clampedDeltaTime delta) = true).
Proof.
  intros Hd. unfold clampedDeltaTime.
  assert (Hq : is_nan (delta / 1000) = false) by (apply div_not_nan; trivial; exact I).
  split; [now apply Math_min_le_r|].
  split; [apply Math_min_l|].
  split; [intros H; now apply Math_min_r|].
  apply clampedDeltaTime_nonneg.
Qed.

Lemma time_step_capped_witness :
  (clampedDeltaTime 40 <=? 1 / 60) = true /\
  ((40 / 1000 <? 1 / 60) = true -> clampedDeltaTime 40 = 40 / 1000) /\
  ((1 / 60 <=? 40 / 1000) = true -> clampedDeltaTime 40 = 1 / 60) /\
  ((0 <=? 40) = true -> (0 <=? clampedDeltaTime 40) = true).
Proof. exact (time_step_capped 40 eq_refl). Defined.

(** X2.  Two frames that both last a sixtieth of a second or more do the
    same to every scene: beyond the cap the elapsed time is not looked at. *)
Theorem long_frames_alike (delta1 delta2 : float) (s : GameScene) :
  (1 / 60 <=? delta1 / 1000) = true ->
  (1 / 60 <=? delta2 / 1000) = true ->
  update delta1 s = update delta2 s.
Proof.
  intros H1 H2. unfold update.
  assert (E : forall d, (1 / 60 <=? d / 1000) = true -> clampedDeltaTime d = 1 / 60).
  { intros d H. unfold clampedDeltaTime. now apply Math_min_r. }
  now rewrite (E delta1 H1), (E delta2 H2).
Qed.

Lemma long_frames_alike_witness :
  update 17 (pointerdown create) = update 5000 (pointerdown create).
Proof. exact (long_frames_alike 17 5000 (pointerdown create) eq_refl eq_refl). Defined.

(** ** What is on screen *)

(** A property kept by every event is kept by every run. *)
Lemma run_always (P : GameScene -> Prop) :
  (forall e s, P s -> P (step e s)) ->
  forall evs s, P s -> P (run evs s).
Proof.
  intros Hstep evs. induction evs as [|e evs IH]; intros s Hs; trivial.
  cbn. apply IH. now apply Hstep.
Qed.

Lemma update_backgroundSprite delta s :
  backgroundSprite (update delta s) =
  match backgroundSprite s with
  | None => None
  | Some _ => Some (backgroundOffset (update delta s))
  end.
Proof.
  rewrite update_backgroundOffset.
  unfold update. cbv zeta. unfold updateBackgroundScrolling.
  autorewrite with scene.
  destruct (backgroundSprite s) eqn:E.
  - cbn [backgroundSprite set_backgroundSprite]. now autorewrite with scene.
  - now autorewrite with scene.
Qed.

Lemma update_distanceText delta s :
  distanceText (update delta s) = distance (update delta s).
Proof. rewrite update_distance, update_worldOffset, update_forwardVelocity. frame_update. Qed.

(** X3.  The background sprite shows the background offset: once the sprite
    exists, its tile position equals [backgroundOffset] in every state a run
    reaches, and every frame leaves it at the offset the frame has just
    computed.  While the sprite is missing a frame skips the display and
    still advances the offset. *)
Theorem background_shown (evs : list event) (delta : float) (s : GameScene) :
  backgroundSprite (run evs create) = Some (backgroundOffset (run evs create)) /\
  backgroundSprite (update delta s) =
    match backgroundSprite s with
    | None => None
    | Some _ => Some (backgroundOffset (update delta s))
    end /\
  backgroundOffset (update delta (set_backgroundSprite None s)) =
    backgroundOffset s + 130 * clampedDeltaTime delta.
Proof.
  split; [|split; [apply update_backgroundSprite|now rewrite update_backgroundOffset]].
  apply (run_always (fun s => backgroundSprite s = Some (backgroundOffset s)));
    [|reflexivity].
  intros [ | |d|integrate] s0 H; cbn [step]; trivial.
  now rewrite update_backgroundSprite, H.
Qed.

(** X4.  The distance shown is always the floor of a tenth of the world
    offset: in every state a run reaches, [distance] is
    [Math.floor (worldOffset / 10)] and the text shows [distance]. *)
Theorem distance_shown (evs : list event) :
  distance (run evs create) = Math.floor (worldOffset (run evs create) / 10) /\
  distanceText (run evs create) = distance (run evs create).
Proof.
  apply (run_always
           (fun s => distance s = Math.floor (worldOffset s / 10) /\
                     distanceText s = distance s));
    [|split; reflexivity].
  intros [ | |d|integrate] s0 H; cbn [step]; trivial.
  split; [apply update_distance|apply update_distanceText].
Qed.

(** ** The world gravity *)

(** X5.  The world gravity is never anything but [GRAVITY] or
    [GLIDE_GRAVITY]: [create] sets the first and every frame sets one of the
    two, the one that goes with the thrust flag the frame saw. *)
Theorem gravity_is_one_of_two (evs : list event) (delta : float) :
  (gravity_y (run evs create) = 800 \/ gravity_y (run evs create) = 600) /\
  gravity_y (run (evs ++ [ev_update delta]) create) =
    (if isThrusting (run evs create) then 800 else 600).
Proof.
  split.
  - apply (run_always (fun s => gravity_y s = 800 \/ gravity_y s = 600));
      [|now left].
    intros [ | |d|integrate] s0 H; cbn [step]; trivial.
    rewrite update_gravity_y. destruct (isThrusting s0); [now left|now right].
  - rewrite run_app. cbn [run fold_left step]. apply update_gravity_y.
Qed.

(** ** The pointer *)

(** X6.  After any run the thrust flag is what the last pointer event made
    it, a press or a release, however many pointers went down before; with
    no pointer event in the run it is what it was. *)
Theorem thrust_follows_last_pointer (evs : list event) (s : GameScene) :
  isThrusting (run evs s) =
  match last_pointer evs with
  | Some b => b
  | None => isThrusting s
  end.
Proof.
  revert s. induction evs as [|e evs IH]; intros s; [reflexivity|].
  change (run (e :: evs) s) with (run evs (step e s)).
  rewrite IH. cbn [last_pointer].
  destruct (last_pointer evs); trivial.
  destruct e as [ | |d|integrate]; cbn [step]; trivial.
  apply update_isThrusting.
Qed.

(** ** The walls *)

Lemma constrainBirdPosition_velocity_x s :
  Sprite.velocity_x (bird (constrainBirdPosition s)) =
  if Sprite.x (bird s) <? MOVEMENT.MIN_X then
    Math.max 0 (Sprite.velocity_x (bird s))
  else if MOVEMENT.MAX_X <? Sprite.x (bird s) then
    Math.min 0 (Sprite.velocity_x (bird s))
  else Sprite.velocity_x (bird s).
Proof.
  unfold constrainBirdPosition.
  destruct (Sprite.x (bird s) <? MOVEMENT.MIN_X);
    [|destruct (MOVEMENT.MAX_X <? Sprite.x (bird s))];
    cbn [Sprite.y Sprite.setX Sprite.setVelocityX];
    (destruct (Sprite.y (bird s) <? 0);
      [|destruct (GAME.HEIGHT <? Sprite.y (bird s))]); reflexivity.
Qed.

Lemma constrainBirdPosition_velocity_y s :
  Sprite.velocity_y (bird (constrainBirdPosition s)) =
  if Sprite.y (bird s) <? 0 then
    Math.max 0 (Sprite.velocity_y (bird s))
  else if GAME.HEIGHT <? Sprite.y (bird s) then
    Math.min 0 (Sprite.velocity_y (bird s))
  else Sprite.velocity_y (bird s).
Proof.
  unfold constrainBirdPosition.
  destruct (Sprite.x (bird s) <? MOVEMENT.MIN_X);
    [|destruct (MOVEMENT.MAX_X <? Sprite.x (bird s))];
    cbn [Sprite.y Sprite.setX Sprite.setVelocityX];
    (destruct (Sprite.y (bird s) <? 0);
      [|destruct (GAME.HEIGHT <? Sprite.y (bird s))]); reflexivity.
Qed.

(** X7.  A frame with the thrust held ends with the vertical velocity at
    [THRUST = -500], except above the top of the screen, where the bound
    enforcement replaces it by [Math.max (0, -500) = 0]: thrust is cancelled
    at the ceiling and nowhere else, the floor included. *)
Theorem thrust_cancelled_at_ceiling (delta : float) (s : GameScene) :
  isThrusting s = true ->
  Sprite.velocity_y (bird (update delta s)) =
  if Sprite.y (bird s) <? 0 then 0 else -500.
Proof.
  intros H.
  rewrite update_bird, constrainBirdPosition_velocity_y.
  autorewrite with scene. rewrite H.
  destruct (Sprite.y (bird s) <? 0); [reflexivity|].
  now destruct (GAME.HEIGHT <? Sprite.y (bird s)).
Qed.

Lemma thrust_cancelled_at_ceiling_witness :
  Sprite.velocity_y
    (bird (update 16 (pointerdown (set_bird (Sprite.mk 300 (-4) 70 (-500)) create)))) = 0 /\
  Sprite.velocity_y
    (bird (update 16 (pointerdown (set_bird (Sprite.mk 300 1100 70 200) create)))) = -500.
Proof.
  split.
  - exact (thrust_cancelled_at_ceiling 16
             (pointerdown (set_bird (Sprite.mk 300 (-4) 70 (-500)) create)) eq_refl).
  - exact (thrust_cancelled_at_ceiling 16
             (pointerdown (set_bird (Sprite.mk 300 1100 70 200) create)) eq_refl).
Defined.

Lemma Math_max_0_pos v : (0 <? v) = true -> Math.max 0 v = v.
Proof.
  intros H. destruct (ltb_not_nan _ _ H) as [_ Nv].
  unfold Math.max. rewrite Nv. change (is_nan 0) with false. cbn [orb].
  now rewrite (ltb_asym _ _ H), H.
Qed.

Lemma Math_min_0_pos v : (0 <? v) = true -> Math.min 0 v = 0.
Proof.
  intros H. destruct (ltb_not_nan _ _ H) as [_ Nv].
  unfold Math.min. rewrite Nv. change (is_nan 0) with false. cbn [orb].
  now rewrite H.
Qed.

Lemma within_elim lo hi v :
  within lo hi v = true -> (lo <=? v) = true /\ (v <=? hi) = true.
Proof. apply andb_prop. Qed.

(** The horizontal velocity a frame ends with, for a positive forward
    velocity [v]. *)
Lemma update_velocity_x delta s v :
  v = forwardVelocity (update delta s) ->
  (0 <? v) = true ->
  Sprite.velocity_x (bird (update delta s)) =
  if 800 <? Sprite.x (bird s) then 0 else v.
Proof.
  intros Ev Hpos.
  rewrite update_bird, constrainBirdPosition_velocity_x.
  autorewrite with scene.
  rewrite updateForwardVelocity_velocity_x, <- update_forwardVelocity, <- Ev.
  change MOVEMENT.MIN_X with 200. change MOVEMENT.MAX_X with 800.
  destruct (Sprite.x (bird s) <? 200) eqn:X1.
  - rewrite (ltb_asym (Sprite.x (bird s)) 800)
      by (apply ltb_leb_trans with 200; trivial).
    now apply Math_max_0_pos.
  - destruct (800 <? Sprite.x (bird s)); trivial.
    now apply Math_min_0_pos.
Qed.

(** X8.  A frame ends with the bird's horizontal velocity equal to the
    forward velocity the frame computed, except right of [MAX_X], where the
    bound enforcement replaces it by [Math.min (0, v) = 0]; left of [MIN_X]
    it is kept, since it is positive.  So the horizontal velocity of the
    body is never negative when a frame ends. *)
Theorem horizontal_velocity_after_frame (delta : float) (s : GameScene) :
  within 70 1700 (forwardVelocity s) = true ->
  is_nan delta = false ->
  Sprite.velocity_x (bird (update delta s)) =
    (if 800 <? Sprite.x (bird s) then 0 else forwardVelocity (update delta s)) /\
  (0 <=? Sprite.velocity_x (bird (update delta s))) = true.
Proof.
  intros Hv Hd.
  pose proof (update_forwardVelocity_within delta s Hd Hv) as Hv'.
  apply within_elim in Hv'. destruct Hv' as [Hlo _].
  assert (Hpos : (0 <? forwardVelocity (update delta s)) = true)
    by now apply ltb_leb_trans with 70.
  pose proof (update_velocity_x delta s _ eq_refl Hpos) as E.
  split; trivial. rewrite E.
  destruct (800 <? Sprite.x (bird s)); [reflexivity|now apply ltb_leb].
Qed.

Lemma horizontal_velocity_after_frame_witness :
  let s := set_bird (Sprite.mk 805 540 70 0) create in
  Sprite.velocity_x (bird (update 16 s)) =
    (if 800 <? Sprite.x (bird s) then 0 else forwardVelocity (update 16 s)) /\
  (0 <=? Sprite.velocity_x (bird (update 16 s))) = true.
Proof.
  exact (horizontal_velocity_after_frame 16
           (set_bird (Sprite.mk 805 540 70 0) create) eq_refl eq_refl).
Defined.

Lemma ltb_irrefl a : (a <? a) = false.
Proof.
  destruct (a <? a) eqn:E; trivial. now rewrite (ltb_asym _ _ E) in E.
Qed.

(** A clamped value is on no side of its bounds. *)
Lemma clamp_to_inside lo hi v :
  (lo <=? hi) = true ->
  (clamp_to lo hi v <? lo) = false /\ (hi <? clamp_to lo hi v) = false.
Proof.
  intros H. unfold clamp_to.
  destruct (v <? lo) eqn:E1; [split; [apply ltb_irrefl|now apply leb_not_ltb]|].
  destruct (hi <? v) eqn:E2; [split; [now apply leb_not_ltb|apply ltb_irrefl]|].
  now split.
Qed.

Lemma constrainBirdPosition_inside s :
  (Sprite.x (bird s) <? MOVEMENT.MIN_X) = false ->
  (MOVEMENT.MAX_X <? Sprite.x (bird s)) = false ->
  (Sprite.y (bird s) <? 0) = false ->
  (GAME.HEIGHT <? Sprite.y (bird s)) = false ->
  constrainBirdPosition s = s.
Proof.
  intros X1 X2 Y1 Y2. unfold constrainBirdPosition.
  rewrite X1, X2, Y1, Y2.
  now destruct s as [[x y vx vy] th d dt bs bo fv ct wo g sx].
Qed.

(** X9.  The bound enforcement is idempotent: a bird it has put inside the
    bounds is not touched by a second enforcement, neither its position nor
    its velocity, whatever the floats it started from. *)
Theorem bound_enforcement_idempotent (s : GameScene) :
  constrainBirdPosition (constrainBirdPosition s) = constrainBirdPosition s.
Proof.
  apply constrainBirdPosition_inside;
    rewrite ?constrainBirdPosition_x, ?constrainBirdPosition_y;
    now apply clamp_to_inside.
Qed.

(** ** Rounding from above *)

#[local] Open Scope Z_scope.

Lemma shr_1_exact r q :
  shr_r r = false -> shr_s r = false -> 0 <= q -> shr_m r = q * 2 ->
  shr_1 r = Build_shr_record q false false.
Proof.
  destruct r as [m rb sb]. cbn [shr_m shr_r shr_s shr_1].
  intros -> -> Hq Hm.
  destruct m as [|[p|p|]|p]; cbn [orb]; try lia.
  - f_equal. lia.
  - f_equal. lia.
Qed.

Lemma iter_shr_1_exact (p : positive) :
  forall r q,
  shr_r r = false -> shr_s r = false -> 0 <= q -> shr_m r = q * 2 ^ Zpos p ->
  iter_pos shr_1 p r = Build_shr_record q false false.
Proof.
  induction p as [p IH|p IH|]; intros r q Hr Hs Hq Hm; cbn [iter_pos].
  - assert (Hp : 0 < 2 ^ Zpos p) by (apply Z.pow_pos_nonneg; lia).
    assert (E : 2 ^ Zpos p~1 = 2 * (2 ^ Zpos p * 2 ^ Zpos p)).
    { rewrite Pos2Z.inj_xI, <- Z.pow_add_r, <- Z.pow_succ_r by lia. f_equal. lia. }
    rewrite (shr_1_exact r (q * 2 ^ Zpos p * 2 ^ Zpos p)) by (trivial; nia).
    rewrite (IH (Build_shr_record (q * 2 ^ Zpos p * 2 ^ Zpos p) false false)
                (q * 2 ^ Zpos p)) by (trivial; nia).
    apply IH; trivial.
  - assert (Hp : 0 < 2 ^ Zpos p) by (apply Z.pow_pos_nonneg; lia).
    assert (E : 2 ^ Zpos p~0 = 2 ^ Zpos p * 2 ^ Zpos p).
    { rewrite Pos2Z.inj_xO, <- Z.pow_add_r by lia. f_equal. lia. }
    rewrite (IH r (q * 2 ^ Zpos p)) by (trivial; nia).
    apply IH; trivial.
  - apply shr_1_exact; trivial.
Qed.

Section RoundingUp.
Variables prec emax : Z.
Hypothesis prec_pos : 0 < prec.

#[local] Notation "'fexp'" := (SpecFloat.fexp prec emax).
#[local] Notation "'emin'" := (SpecFloat.emin prec emax).

(** An exact shift leaves neither a round bit nor a sticky bit. *)
Lemma shr_fexp_exact m e q :
  0 <= q ->
  m = q * 2 ^ (Z.max e (fexp (Zdigits2 m + e)) - e) ->
  fst (shr_fexp prec emax m e loc_Exact) = Build_shr_record q false false.
Proof.
  intros Hq Hm. unfold shr_fexp, shr. cbn [shr_record_of_loc].
  destruct (fexp (Zdigits2 m + e) - e) as [|p|p] eqn:E; cbn [fst].
  - replace (Z.max e (fexp (Zdigits2 m + e)) - e) with 0 in Hm by lia.
    f_equal. cbn in Hm. lia.
  - replace (Z.max e (fexp (Zdigits2 m + e)) - e) with (Zpos p) in Hm by lia.
    now apply iter_shr_1_exact.
  - replace (Z.max e (fexp (Zdigits2 m + e)) - e) with 0 in Hm by lia.
    f_equal. cbn in Hm. lia.
Qed.

(** The rounding of an exact mantissa, in integers: as
    [binary_round_aux_spec], with the mantissa kept when the first shift
    loses nothing. *)
Lemma binary_round_aux_exact_spec s m e :
  0 <= m ->
  exists m2,
    let e1 := Z.max e (fexp (Zdigits2 m + e)) in
    let e3 := Z.max e1 (fexp (Zdigits2 m2 + e1)) in
    m / 2 ^ (e1 - e) <= m2 <= m / 2 ^ (e1 - e) + 1 /\
    (m = m / 2 ^ (e1 - e) * 2 ^ (e1 - e) -> m2 = m / 2 ^ (e1 - e)) /\
    binary_round_aux prec emax s m e loc_Exact =
      match m2 / 2 ^ (e3 - e1) with
      | Z0 => S754_zero s
      | Zpos p => if e3 <=? emax - prec then S754_finite s p e3 else S754_infinity s
      | Zneg _ => S754_nan
      end.
Proof.
  intros Hm. unfold binary_round_aux.
  destruct (shr_fexp_spec prec emax m e loc_Exact Hm) as [He1 Hm1].
  pose proof (shr_fexp_exact m e (m / 2 ^ (Z.max e (fexp (Zdigits2 m + e)) - e))) as Hx.
  destruct (shr_fexp prec emax m e loc_Exact) as [r1 e1] eqn:E1.
  cbn [fst snd] in He1, Hm1, Hx.
  set (m2 := round_nearest_even (shr_m r1) (loc_of_shr_record r1)).
  pose proof (round_nearest_even_bounds (shr_m r1) (loc_of_shr_record r1)) as Hb.
  fold m2 in Hb.
  assert (H1 : 0 <= shr_m r1) by (rewrite Hm1; apply Z.div_pos; lia).
  assert (Hm2 : 0 <= m2) by lia.
  destruct (shr_fexp_spec prec emax m2 e1 loc_Exact Hm2) as [He3 Hm3].
  destruct (shr_fexp prec emax m2 e1 loc_Exact) as [r3 e3] eqn:E3.
  cbn [fst snd] in He3, Hm3.
  exists m2. cbn zeta. subst e1 e3. rewrite <- Hm1. split; trivial.
  split; [|now rewrite Hm3].
  intros Hex. subst m2. rewrite Hx; [reflexivity| |].
  - rewrite <- Hm1. exact H1.
  - rewrite <- Hm1. exact Hex.
Qed.

(** Rounding an exact mantissa whose value is at most that of a canonical
    float gives at most that float: rounding up stops at a representable
    number. *)
Lemma binary_round_aux_upper mb eb m e :
  bounded prec emax mb eb = true ->
  0 <= m -> e <= eb ->
  m <= Zpos mb * 2 ^ (eb - e) ->
  match SFcompare (binary_round_aux prec emax false m e loc_Exact)
                  (S754_finite false mb eb) with
  | Some (Lt | Eq) => True
  | _ => False
  end.
Proof.
  intros Hbd Hm He Hle.
  unfold bounded, canonical_mantissa in Hbd.
  apply andb_prop in Hbd. destruct Hbd as [Hc Hmax].
  apply Z.eqb_eq in Hc. apply Z.leb_le in Hmax.
  destruct (binary_round_aux_exact_spec false m e Hm) as (m2 & Hb & Hx & ->).
  cbn zeta in *.
  set (e1 := Z.max e (fexp (Zdigits2 m + e))) in *.
  set (e3 := Z.max e1 (fexp (Zdigits2 m2 + e1))).
  assert (Hemin : emin <= eb) by (rewrite <- Hc; apply fexp_ge_emin).
  (* the first exponent does not go above [eb] *)
  assert (Hd : Zdigits2 m + e <= Zpos (digits2_pos mb) + eb).
  { destruct (Z.eq_dec m 0) as [Hm0|Hm0]; [rewrite Hm0; cbn [Zdigits2]; lia|].
    rewrite digits2_pos_log2, Zdigits2_log2 by lia.
    assert (Z.log2 m <= Z.log2 (Zpos mb * 2 ^ (eb - e))) by now apply Z.log2_le_mono.
    rewrite Z.log2_mul_pow2 in H by lia. lia. }
  assert (He1 : e1 <= eb).
  { pose proof (fexp_mono prec emax _ _ Hd). lia. }
  assert (Hk : 0 <= e1 - e) by lia.
  assert (Hp : 0 < 2 ^ (e1 - e)) by (apply Z.pow_pos_nonneg; lia).
  (* the rounded mantissa stays at most [mb] at exponent [e1] *)
  set (B := Zpos mb * 2 ^ (eb - e1)).
  assert (HB : Zpos mb * 2 ^ (eb - e) = B * 2 ^ (e1 - e)).
  { unfold B. rewrite <- Z.mul_assoc, <- Z.pow_add_r by lia. do 2 f_equal. lia. }
  assert (Hm1 : m / 2 ^ (e1 - e) <= B).
  { apply Z.div_le_upper_bound; lia. }
  assert (Hm2 : m2 <= B).
  { destruct (Z.eq_dec (m / 2 ^ (e1 - e)) B) as [E|E]; [|lia].
    rewrite Hx; [lia|].
    pose proof (Z.mul_div_le m (2 ^ (e1 - e)) Hp). rewrite E in *. lia. }
  assert (Hm2' : 0 <= m2).
  { assert (0 <= m / 2 ^ (e1 - e)) by (apply Z.div_pos; lia). lia. }
  assert (HBpos : 0 < B).
  { unfold B. apply Z.mul_pos_pos; [lia|apply Z.pow_pos_nonneg; lia]. }
  assert (Hd2 : Zdigits2 m2 + e1 <= Zpos (digits2_pos mb) + eb).
  { destruct (Z.eq_dec m2 0) as [Hm0|Hm0]; [rewrite Hm0; cbn [Zdigits2]; lia|].
    rewrite digits2_pos_log2, Zdigits2_log2 by lia.
    assert (Z.log2 m2 <= Z.log2 B) by now apply Z.log2_le_mono.
    unfold B in H. rewrite Z.log2_mul_pow2 in H by lia. lia. }
  assert (He3 : e3 <= eb).
  { pose proof (fexp_mono prec emax _ _ Hd2). lia. }
  assert (Hp3 : 0 < 2 ^ (e3 - e1)) by (apply Z.pow_pos_nonneg; lia).
  assert (Hm3 : 0 <= m2 / 2 ^ (e3 - e1)) by (apply Z.div_pos; lia).
  destruct (m2 / 2 ^ (e3 - e1)) as [|m3|m3] eqn:E3; try lia; cbn [SFcompare]; trivial.
  replace (e3 <=? emax - prec) with true by (symmetry; apply Z.leb_le; lia).
  cbn [SFcompare].
  destruct (Z.compare_spec e3 eb) as [E|E|E]; trivial; try lia.
  change (Pos.compare_cont Eq m3 mb) with (Pos.compare m3 mb).
  destruct (Pos.compare_spec m3 mb) as [E'|E'|E']; trivial.
  assert (Zpos m3 <= Zpos mb); [|lia].
  rewrite <- E3. subst e3. rewrite E.
  apply Z.div_le_upper_bound; [apply Z.pow_pos_nonneg; lia|].
  unfold B in Hm2. lia.
Qed.

(** Multiplying a positive number by a factor of at most one does not
    increase it. *)
Lemma SFmul_fraction_le x y :
  SpecFloat.valid_binary prec emax x = true ->
  SFfinite x -> SFnonneg x -> SFfraction y = true ->
  SFle (SFmul prec emax x y) x.
Proof.
  destruct x as [sx|sx| |[|] mx ex]; cbn [SFfinite SFnonneg]; try contradiction.
  intros Hv _ _.
  destruct y as [sy|sy| |[|] my ey]; cbn [SFfraction]; try discriminate.
  intros Hy. apply andb_prop in Hy. destruct Hy as [Hey Hmy].
  apply Z.leb_le in Hey, Hmy.
  unfold SFle. cbn [SFmul xorb].
  apply binary_round_aux_upper; trivial; try lia.
  replace (ex - (ex + ey)) with (- ey) by lia.
  rewrite Pos2Z.inj_mul. apply Z.mul_le_mono_nonneg_l; lia.
Qed.
End RoundingUp.

#[local] Close Scope Z_scope.

Lemma mul_fraction_le a c :
  SFfinite (Prim2SF a) -> (0 <=? a) = true -> SFfraction (Prim2SF c) = true ->
  (a * c <=? a) = true.
Proof.
  intros Hf Ha Hc. apply nonneg_SF in Ha. apply leb_SFle. rewrite mul_spec.
  apply SFmul_fraction_le; trivial; try exact prec_pos. apply Prim2SF_valid.
Qed.

Lemma leb_antisym a b :
  (a <=? b) = true -> (b <=? a) = true -> is_zero a = false -> a = b.
Proof.
  rewrite !leb_cmp, (cmp_sym a b). intros H1 H2 Hz.
  apply cmp_Eq_eq; trivial.
  destruct (cmp a b) as [[ | | ]|]; try discriminate; reflexivity.
Qed.

(** ** The forward velocity under thrust and without *)

Lemma thrust_rule_ge velocityY forwardVelocity delta :
  within 70 1700 forwardVelocity = true -> (0 <=? delta) = true ->
  (forwardVelocity <=? forward_velocity_rule true velocityY forwardVelocity delta)
  = true.
Proof.
  intros Hv Hd. destruct (within_elim _ _ _ Hv) as [Hlo Hhi].
  assert (H0 : (0 <=? forwardVelocity) = true) by now apply leb_trans with 70.
  assert (Hi : (0 <=? 20 * delta) = true)
    by (apply mul_nonneg; trivial; left; exact I).
  pose proof (add_nonneg_le _ _ H0 Hi) as Hge.
  unfold forward_velocity_rule, clamp_to.
  rewrite (leb_not_ltb 70 (forwardVelocity + 20 * delta))
    by now apply leb_trans with forwardVelocity.
  now destruct (1700 <? forwardVelocity + 20 * delta).
Qed.

Lemma coast_rule_le velocityY forwardVelocity delta :
  within 70 1700 forwardVelocity = true ->
  (forward_velocity_rule false velocityY forwardVelocity delta <=? forwardVelocity)
  = true.
Proof.
  intros Hv. destruct (within_elim _ _ _ Hv) as [Hlo Hhi].
  destruct (speed_finite _ Hv) as [Hf _].
  assert (H0 : (0 <=? forwardVelocity) = true) by now apply leb_trans with 70.
  unfold forward_velocity_rule.
  set (v := if 300 <? velocityY then forwardVelocity * 0.95
            else forwardVelocity * 0.99).
  assert (Hle : (v <=? forwardVelocity) = true).
  { unfold v. destruct (300 <? velocityY); now apply mul_fraction_le. }
  unfold clamp_to. destruct (v <? 70); trivial.
  now rewrite (leb_not_ltb v 1700) by now apply leb_trans with forwardVelocity.
Qed.

Lemma coast_rule_within velocityY forwardVelocity delta :
  within 70 1700 forwardVelocity = true ->
  within 70 1700
    (forward_velocity_rule false velocityY forwardVelocity delta) = true.
Proof.
  intros Hv.
  change (forward_velocity_rule false velocityY forwardVelocity delta)
    with (forward_velocity_rule false velocityY forwardVelocity 0).
  now apply forward_velocity_rule_within.
Qed.

(** X10.  Holding the thrust never slows the bird down: after a frame with
    the flag set and an elapsed time that is not negative, the forward
    velocity is at least what it was, and at [MAX_FORWARD_SPEED] it stays
    there. *)
Theorem thrusting_never_slows (delta : float) (s : GameScene) :
  isThrusting s = true ->
  within 70 1700 (forwardVelocity s) = true ->
  (0 <=? delta) = true ->
  (forwardVelocity s <=? forwardVelocity (update delta s)) = true /\
  (forwardVelocity s = 1700 -> forwardVelocity (update delta s) = 1700).
Proof.
  intros Ht Hv Hd.
  assert (Hn : is_nan delta = false) by now apply leb_not_nan in Hd.
  pose proof (update_forwardVelocity_within delta s Hn Hv) as Hv'.
  destruct (within_elim _ _ _ Hv') as [_ Hhi].
  assert (Hge : (forwardVelocity s <=? forwardVelocity (update delta s)) = true).
  { rewrite update_forwardVelocity_rule, Ht.
    apply thrust_rule_ge; trivial. now apply clampedDeltaTime_nonneg. }
  split; trivial.
  intros E. rewrite E in Hge. symmetry. now apply leb_antisym.
Qed.

Lemma thrusting_never_slows_witness :
  let s := pointerdown create in
  (forwardVelocity s <=? forwardVelocity (update 16 s)) = true /\
  (forwardVelocity s = 1700 -> forwardVelocity (update 16 s) = 1700).
Proof.
  exact (thrusting_never_slows 16 (pointerdown create) eq_refl eq_refl eq_refl).
Defined.

(** X11.  Without thrust the bird never speeds up: after a frame with the
    flag clear the forward velocity is at most what it was, whether the bird
    glides or falls badly and whatever the elapsed time, and at
    [BASE_FORWARD_SPEED] it stays there. *)
Theorem coasting_never_speeds_up (delta : float) (s : GameScene) :
  isThrusting s = false ->
  within 70 1700 (forwardVelocity s) = true ->
  (forwardVelocity (update delta s) <=? forwardVelocity s) = true /\
  (forwardVelocity s = 70 -> forwardVelocity (update delta s) = 70).
Proof.
  intros Ht Hv.
  assert (Hle : (forwardVelocity (update delta s) <=? forwardVelocity s) = true).
  { rewrite update_forwardVelocity_rule, Ht. now apply coast_rule_le. }
  assert (Hv' : within 70 1700 (forwardVelocity (update delta s)) = true).
  { rewrite update_forwardVelocity_rule, Ht. now apply coast_rule_within. }
  destruct (within_elim _ _ _ Hv') as [Hlo _].
  split; trivial.
  intros E. rewrite E in Hle. symmetry. now apply leb_antisym.
Qed.

Lemma coasting_never_speeds_up_witness :
  let s := set_forwardVelocity 400 (set_bird (Sprite.mk 300 500 400 350) create) in
  (forwardVelocity (update 16 s) <=? forwardVelocity s) = true /\
  (forwardVelocity s = 70 -> forwardVelocity (update 16 s) = 70).
Proof.
  exact (coasting_never_speeds_up 16
           (set_forwardVelocity 400 (set_bird (Sprite.mk 300 500 400 350) create))
           eq_refl eq_refl).
Defined.

(** ** The camera's direction *)

#[local] Open Scope Z_scope.

Section Subtraction.
Variables prec emax : Z.
Hypothesis prec_pos : 0 < prec.

#[local] Notation "'fexp'" := (SpecFloat.fexp prec emax).

(** The order of two canonical positive floats is the order of their
    mantissas once aligned on the smaller exponent. *)
Lemma canonical_le_aligned m0 e0 m1 e1 :
  canonical_mantissa prec emax m0 e0 = true ->
  canonical_mantissa prec emax m1 e1 = true ->
  SFle (S754_finite false m0 e0) (S754_finite false m1 e1) ->
  Zpos (fst (shl_align m0 e0 (Z.min e1 e0))) <=
  Zpos (fst (shl_align m1 e1 (Z.min e1 e0))).
Proof.
  unfold canonical_mantissa, SFle. cbn [SFcompare].
  intros H0 H1 Hle. apply Z.eqb_eq in H0, H1.
  destruct (shl_align_spec m0 e0 (Z.min e1 e0)) as [_ ->].
  destruct (shl_align_spec m1 e1 (Z.min e1 e0)) as [_ ->].
  destruct (Z.compare_spec e0 e1) as [E|E|E]; try contradiction.
  - subst e1. rewrite !Z.min_id, !Z.sub_diag, !Z.mul_1_r.
    change (Pos.compare_cont Eq m0 m1) with (Pos.compare m0 m1) in Hle.
    destruct (Pos.compare_spec m0 m1); try contradiction; lia.
  - replace (Z.min e0 (Z.min e1 e0)) with e0 by lia.
    replace (Z.min e1 (Z.min e1 e0)) with e0 by lia.
    rewrite Z.sub_diag, Z.mul_1_r.
    pose proof (digits2_pos_bounds m0) as [_ Hm0].
    pose proof (digits2_pos_bounds m1) as [Hm1 _].
    unfold SpecFloat.fexp in H0, H1.
    assert (D0 : Zpos (digits2_pos m0) <= prec) by lia.
    assert (D1 : Zpos (digits2_pos m1) = prec) by lia.
    rewrite D1 in Hm1.
    assert (P1 : 2 ^ Zpos (digits2_pos m0) <= 2 ^ prec)
      by (apply Z.pow_le_mono_r; lia).
    assert (P2 : 2 ^ prec = 2 * 2 ^ (prec - 1))
      by (rewrite <- Z.pow_succ_r by lia; f_equal; lia).
    assert (P3 : 2 * 1 <= 2 ^ (e1 - e0)).
    { replace (e1 - e0) with (Z.succ (e1 - e0 - 1)) by lia.
      rewrite Z.pow_succ_r by lia.
      assert (0 < 2 ^ (e1 - e0 - 1)) by (apply Z.pow_pos_nonneg; lia). lia. }
    assert (0 < 2 ^ (prec - 1)) by (apply Z.pow_pos_nonneg; lia).
    nia.
Qed.

(** Subtracting a smaller finite number that is not negative leaves a
    number that is not negative. *)
Lemma SFsub_nonneg x y :
  SpecFloat.valid_binary prec emax x = true ->
  SpecFloat.valid_binary prec emax y = true ->
  SFnonneg y -> SFle y x -> y <> S754_infinity false ->
  SFnonneg (SFsub prec emax x y).
Proof.
  intros Vx Vy Hy Hle Hinf.
  destruct y as [sy|[|]| |[|] my ey]; cbn [SFnonneg] in Hy; try contradiction;
    try congruence;
    destruct x as [sx|[|]| |[|] mx ex]; unfold SFle in Hle; cbn [SFcompare] in Hle;
    try contradiction; cbn [SFsub SFnonneg]; trivial.
  - now destruct sx, sy.
  - cbn [valid_binary] in Vx, Vy. unfold bounded in Vx, Vy.
    apply andb_prop in Vx, Vy. destruct Vx as [Cx _], Vy as [Cy _].
    pose proof (canonical_le_aligned my ey mx ex Cy Cx) as H.
    unfold SFle in H. cbn [SFcompare] in H. specialize (H Hle).
    cbn [cond_Zopp].
    destruct (Zpos (fst (shl_align mx ex (Z.min ex ey)))
              - Zpos (fst (shl_align my ey (Z.min ex ey)))) as [|d|d] eqn:E;
      cbn [binary_normalize SFnonneg]; trivial; [|lia].
    apply SFsigned_nonneg, binary_round_signed.
Qed.
End Subtraction.

#[local] Close Scope Z_scope.

Lemma sub_nonneg a b :
  (0 <=? b) = true -> (b <=? a) = true -> (b <? infinity) = true ->
  (0 <=? a - b) = true.
Proof.
  intros H0 Hle Hfin. apply nonneg_SF in H0. apply leb_SFle in Hle.
  apply nonneg_SF. rewrite sub_spec.
  apply SFsub_nonneg; trivial; try exact prec_pos; try apply Prim2SF_valid.
  intros E. rewrite ltb_spec, E in Hfin. discriminate.
Qed.

(** The eased scroll is not behind the scroll it started from when the
    target is ahead. *)
Lemma Linear_forward p0 p1 :
  (0 <=? p0) = true -> (p0 <=? p1) = true -> (p0 <? infinity) = true ->
  (p0 <=? Phaser.Linear p0 p1 MOVEMENT.CAMERA_LERP) = true.
Proof.
  intros H0 Hle Hfin. unfold Phaser.Linear. rewrite add_comm.
  apply add_nonneg_le; trivial.
  apply mul_nonneg; [now apply sub_nonneg|reflexivity|right; exact I].
Qed.

(** X12.  The camera does not scroll back while its target is ahead: when
    the camera's scroll is a finite number that is not negative and is at
    most a fifth of the world offset, the scroll after the frame is at
    least the scroll before. *)
Theorem camera_never_scrolls_back (delta : float) (s : GameScene) :
  (0 <=? scrollX s) = true ->
  (scrollX s <=? worldOffset s * 0.2) = true ->
  (scrollX s <? infinity) = true ->
  (scrollX s <=? scrollX (update delta s)) = true.
Proof.
  intros H0 Hle Hfin. rewrite update_scrollX. now apply Linear_forward.
Qed.

Lemma camera_never_scrolls_back_witness :
  let s := update 16 (update 16 (pointerdown create)) in
  (scrollX s <=? scrollX (update 16 s)) = true.
Proof.
  exact (camera_never_scrolls_back 16
           (update 16 (update 16 (pointerdown create))) eq_refl eq_refl eq_refl).
Defined.
